(** * Dreamina-Token-Manager: account pool, refresh scan, selector and
      passthrough dispatcher

    A shallow embedding of
    - the passthrough router ([pickAccount] and the [router.all('*')]
      handler),
    - the account manager (class [DreaminaAccount]),
    - [routes/dreamina-accounts.js] (the handlers of the account routes),
    followed by the properties of the specification that concern them.

    Conventions.  A JavaScript string is a Rocq [string], read as a sequence
    of code units below 256; [undefined]/[null] is [None].  A JavaScript
    object used as a dictionary (the request headers) is a [gmap string
    string]; arrays are lists.  Collaborators whose code is not part of
    these files (token manager, persistence, axios) are section variables:
    total functions from the arguments of a call to its outcome, where
    "throws"/"rejects" is one of the outcomes; a call to one of them leaves
    the fields of the manager and the records of the store as they are, and
    is written to a log where a property speaks of the calls made. *)

From Stdlib Require Import ZArith Ascii.
From Stdlib Require String.
From stdpp Require Import base option list gmap strings.

(** ** JavaScript primitives used by the sources *)

Module Js.

(** Truthiness of a possibly-undefined string: [undefined] and [''] are
    falsy, any other string is truthy. *)
Definition truthy (o : option string) : bool :=
  match o with
  | Some (String _ _) => true
  | _ => false
  end.

(** [s.startsWith(p)] *)
Fixpoint startsWith (s p : string) {struct p} : bool :=
  match p, s with
  | EmptyString, _ => true
  | String a p', String b s' => if decide (a = b) then startsWith s' p' else false
  | String _ _, EmptyString => false
  end.

(** [hay.includes(needle)] *)
Fixpoint includes (hay needle : string) : bool :=
  startsWith hay needle ||
  match hay with
  | EmptyString => false
  | String _ rest => includes rest needle
  end.

Definition lowerChar (c : ascii) : ascii :=
  let n := nat_of_ascii c in
  if (65 <=? n) && (n <=? 90) then ascii_of_nat (n + 32) else c.

Definition upperChar (c : ascii) : ascii :=
  let n := nat_of_ascii c in
  if (97 <=? n) && (n <=? 122) then ascii_of_nat (n - 32) else c.

Fixpoint mapChars (f : ascii → ascii) (s : string) : string :=
  match s with
  | EmptyString => EmptyString
  | String c rest => String (f c) (mapChars f rest)
  end.

(** [s.toLowerCase()] and [s.toUpperCase()] on the letters A-Z / a-z. *)
Definition toLowerCase : string → string := mapChars lowerChar.
Definition toUpperCase : string → string := mapChars upperChar.

(** [h.charAt(0).toUpperCase() + h.slice(1)] *)
Definition capitalize (h : string) : string :=
  match h with
  | EmptyString => EmptyString
  | String c rest => String (upperChar c) rest
  end.

(** [s.replace(/^\/api/, '')]: drop a leading [p] when there is one. *)
Fixpoint stripPrefix (p s : string) {struct p} : option string :=
  match p, s with
  | EmptyString, _ => Some s
  | String a p', String b s' => if decide (a = b) then stripPrefix p' s' else None
  | String _ _, EmptyString => None
  end.

Definition replacePrefix (p s : string) : string :=
  default s (stripPrefix p s).

(** [s.replace(/\/$/, '')]: drop the last character when it is a slash.
    Without the [m] flag [$] matches at the very end of the input only. *)
Fixpoint replaceTrailingSlash (s : string) : string :=
  match s with
  | EmptyString => EmptyString
  | String c EmptyString => if decide (c = "/"%char) then EmptyString else s
  | String c rest => String c (replaceTrailingSlash rest)
  end.

(** [arr.findIndex(p)], with [-1] as [None]. *)
Fixpoint findIndex {A} (p : A → bool) (l : list A) : option nat :=
  match l with
  | [] => None
  | x :: rest => if p x then Some 0 else S <$> findIndex p rest
  end.

(** [arr.find(p)] *)
Fixpoint find {A} (p : A → bool) (l : list A) : option A :=
  match l with
  | [] => None
  | x :: rest => if p x then Some x else find p rest
  end.

(** Truthiness of a possibly-undefined number: [undefined], [NaN] (both
    [None]) and [0] are falsy. *)
Definition truthyNumber (o : option Z) : bool :=
  match o with
  | Some n => negb (n =? 0)%Z
  | None => false
  end.

(** [x || d] on the result of [parseInt], [NaN] being [None]. *)
Definition numberOr (parsed : option Z) (d : Z) : Z :=
  if truthyNumber parsed then default d parsed else d.

(** A relative index of [arr.slice]: negative indices count from the end,
    and every index is clamped to the array. *)
Definition sliceIndex (len : nat) (i : Z) : nat :=
  if (i <? 0)%Z then Z.to_nat (Z.max (Z.of_nat len + i) 0)
  else Z.to_nat (Z.min i (Z.of_nat len)).

(** [arr.slice(start, end)] *)
Definition slice {A} (arr : list A) (start end_ : Z) : list A :=
  let from := sliceIndex (length arr) start in
  let to := sliceIndex (length arr) end_ in
  take (to - from) (drop from arr).

(** The delay that a timer of [setInterval(f, ms)] runs with: Node sets a
    delay larger than 2147483647 or less than 1 to 1. *)
Definition setIntervalDelay (ms : Z) : Z :=
  if (ms <? 1)%Z || (2147483647 <? ms)%Z then 1%Z else ms.

End Js.

(** ** Account records *)

Record Account := mkAccount {
  email : string;
  password : string;
  token : option string;
  expires : option Z;
  sessionid : option string;
  sessionid_expires : option Z
}.

Definition sameEmail (e : string) (acc : Account) : bool :=
  bool_decide (email acc = e).

(** ** The account selector ([pickAccount] and its counter [rrIndex]) *)

Module Selector.

(** [all.filter(a => a && a.sessionid)] *)
Definition available (all : list Account) : list Account :=
  List.filter (λ a, Js.truthy (sessionid a)) all.

(** One call of [pickAccount]: the store snapshot and the current value of
    [rrIndex] go in, the picked account ([null] as [None]) and the new value
    of [rrIndex] come out. *)
Definition pickAccount (all : list Account) (rrIndex : nat) : option Account * nat :=
  let available := available all in
  if decide (length available = 0) then (None, rrIndex)
  else
    let rrIndex' := (rrIndex + 1) `mod` length available in
    (available !! rrIndex', rrIndex').

(** [n] consecutive calls on an unchanged store. *)
Fixpoint pickMany (n : nat) (all : list Account) (rrIndex : nat) : list (option Account) * nat :=
  match n with
  | 0 => ([], rrIndex)
  | S n' =>
      let '(a, rr1) := pickAccount all rrIndex in
      let '(rest, rr2) := pickMany n' all rr1 in
      (a :: rest, rr2)
  end.

End Selector.

(** ** The passthrough dispatcher (the [router.all('*')] handler) *)

Module Dispatcher.

Record Request := mkRequest {
  method : string;
  path : string;
  originalUrl : option string;
  url : option string;
  headers : gmap string string;
  body : option string
}.

(** The object handed to [axios].  [validateStatus: () => true] has no field
    of its own: it is why [axios] resolves on every HTTP status. *)
Record AxiosConfig := mkAxiosConfig {
  ac_method : string;
  ac_url : string;
  ac_headers : gmap string string;
  ac_data : option string;
  ac_timeout : Z
}.

Record UpstreamResponse := mkUpstreamResponse {
  up_status : Z;
  up_headers : list (string * string);
  up_data : option string
}.

(** The fields of a thrown error that the [catch] block reads. *)
Record JsError := mkJsError {
  code : option string;
  message : option string
}.

Inductive AxiosOutcome :=
  | Resolved (resp : UpstreamResponse)
  | Rejected (e : JsError).

(** What the handler sends: [res.status(..).json({error, detail})] for the
    dispatcher's own errors, [res.status(..).send(data)] for a relayed
    upstream response. *)
Inductive Payload :=
  | ErrorJson (error : string) (detail : option string)
  | Relayed (data : option string).

Record Response := mkResponse {
  status : Z;
  setHeader : list (string * string);
  payload : Payload
}.

Definition setCorsHeaders : list (string * string) :=
  [ ("Access-Control-Allow-Origin", "*");
    ("Vary", "Origin");
    ("Access-Control-Allow-Methods", "GET,POST,PUT,PATCH,DELETE,OPTIONS");
    ("Access-Control-Allow-Headers", "Authorization, Content-Type, Accept, X-Requested-With");
    ("Access-Control-Max-Age", "600") ].

(** [account.sessionid.startsWith('us-') ? account.sessionid : `us-${account.sessionid}`] *)
Definition normalizeSessionId (sessionid : string) : string :=
  if Js.startsWith sessionid "us-" then sessionid else "us-" +:+ sessionid.

(** [req.originalUrl || req.url || ''] *)
Definition originalPath (req : Request) : string :=
  if Js.truthy (originalUrl req) then default "" (originalUrl req)
  else if Js.truthy (url req) then default "" (url req)
  else "".

Definition pathWithoutApi (originalPath : string) : string :=
  Js.replacePrefix "/api" originalPath.

Definition targetUrl (base originalPath : string) : string :=
  Js.replaceTrailingSlash base +:+ pathWithoutApi originalPath.

Definition removedHeaders : list string :=
  ["host"; "connection"; "content-length"; "transfer-encoding"; "expect"].

(** One round of the [forEach] over [removedHeaders]. *)
Definition removeHeader (incomingHeaders : gmap string string) (h : string) : gmap string string :=
  let incomingHeaders :=
    if Js.truthy (incomingHeaders !! h) then delete h incomingHeaders else incomingHeaders in
  let H := Js.capitalize h in
  if Js.truthy (incomingHeaders !! H) then delete H incomingHeaders else incomingHeaders.

(** [{ ...incomingHeaders, authorization: `Bearer ${sessionId}` }] after the
    [forEach]. *)
Definition outboundHeaders (reqHeaders : gmap string string) (sessionId : string) : gmap string string :=
  <["authorization" := "Bearer " +:+ sessionId]> (foldl removeHeader reqHeaders removedHeaders).

Definition axiosConfig (proxyTimeoutMs : Z) (base sessionId : string) (req : Request) : AxiosConfig :=
  {| ac_method := method req;
     ac_url := targetUrl base (originalPath req);
     ac_headers := outboundHeaders (headers req) sessionId;
     ac_data :=
       if bool_decide (Js.toUpperCase (method req) ∈ ["GET"; "HEAD"]) then None else body req;
     ac_timeout := proxyTimeoutMs |}.

(** Response headers that are copied to the caller. *)
Definition relayedHeaders (respHeaders : list (string * string)) : list (string * string) :=
  List.filter
    (λ kv, negb (bool_decide
       (Js.toLowerCase kv.1 ∈ ["connection"; "keep-alive"; "transfer-encoding"; "upgrade"])))
    respHeaders.

(** The test of the [catch] block. *)
Definition isTimeoutError (e : JsError) : bool :=
  bool_decide (code e = Some "ECONNABORTED") ||
  (Js.truthy (message e) && Js.includes (Js.toLowerCase (default "" (message e))) "timeout").

Definition onError (e : JsError) : Response :=
  if isTimeoutError e
  then {| status := 504; setHeader := setCorsHeaders;
          payload := ErrorJson "gateway timeout" (message e) |}
  else {| status := 502; setHeader := setCorsHeaders;
          payload := ErrorJson "bad gateway" (message e) |}.

Definition onResponse (resp : UpstreamResponse) : Response :=
  {| status := up_status resp;
     setHeader := relayedHeaders (up_headers resp) ++ setCorsHeaders;
     payload := Relayed (up_data resp) |}.

(** The spellings of a header name that the [forEach] looks up: the name
    itself and the name with its first letter in upper case. *)
Definition removedSpellings : list string :=
  h ← removedHeaders; [h; Js.capitalize h].

Section Handler.

(** [axios], [config.proxyTimeoutMs] and the value of [getProxyTarget()]. *)
Variable axios : AxiosConfig → AxiosOutcome.
Variable proxyTimeoutMs : Z.
Variable base : option string.

(** The handler, from the store snapshot returned by [getAllAccounts()] and
    the current [rrIndex] to the response and the new [rrIndex]. *)
Definition handler (all : list Account) (rrIndex : nat) (req : Request) : Response * nat :=
  if negb (Js.truthy base) then
    ({| status := 503; setHeader := setCorsHeaders;
        payload := ErrorJson "proxy target not configured" None |}, rrIndex)
  else if Js.startsWith (path req) "/dreamina" || Js.startsWith (path req) "/events" then
    ({| status := 404; setHeader := []; payload := ErrorJson "not found" None |}, rrIndex)
  else
    let '(account, rrIndex) := Selector.pickAccount all rrIndex in
    match account with
    | Some account =>
        if negb (Js.truthy (sessionid account)) then
          ({| status := 503; setHeader := [];
              payload := ErrorJson "no available account" None |}, rrIndex)
        else
          let sessionId := normalizeSessionId (default "" (sessionid account)) in
          match axios (axiosConfig proxyTimeoutMs (default "" base) sessionId req) with
          | Resolved resp => (onResponse resp, rrIndex)
          | Rejected e => (onError e, rrIndex)
          end
    | None =>
        ({| status := 503; setHeader := [];
            payload := ErrorJson "no available account" None |}, rrIndex)
    end.

End Handler.

(** The names that the relay of the response headers skips. *)
Definition hopByHop : list string :=
  ["connection"; "keep-alive"; "transfer-encoding"; "upgrade"].

(** [if (_safeHeaders[k]) _safeHeaders[k] = mask] *)
Definition maskHeader (k mask : string) (safeHeaders : gmap string string) : gmap string string :=
  if Js.truthy (safeHeaders !! k) then <[k := mask]> safeHeaders else safeHeaders.

(** [_safeHeaders]: the copy of the outbound headers that goes to
    [logger.network]. *)
Definition safeHeaders (headers : gmap string string) : gmap string string :=
  maskHeader "Cookie" "****"
    (maskHeader "cookie" "****"
       (maskHeader "Authorization" "Bearer ****"
          (maskHeader "authorization" "Bearer ****" headers))).

(** The same request with another body. *)
Definition withBody (req : Request) (body : option string) : Request :=
  {| method := method req; path := path req; originalUrl := originalUrl req;
     url := url req; headers := headers req; body := body |}.

(** The paths that the handler answers itself with 404. *)
Definition reserved (req : Request) : bool :=
  Js.startsWith (path req) "/dreamina" || Js.startsWith (path req) "/events".

(** The handler on a sequence of requests, one after the other, on an
    unchanged store: the responses and the final [rrIndex]. *)
Fixpoint handleAll (axios : AxiosConfig → AxiosOutcome) (proxyTimeoutMs : Z)
    (base : option string) (all : list Account) (rrIndex : nat) (reqs : list Request)
    : list Response * nat :=
  match reqs with
  | [] => ([], rrIndex)
  | req :: rest =>
      let '(res, rrIndex) := handler axios proxyTimeoutMs base all rrIndex req in
      let '(ress, rrIndex) := handleAll axios proxyTimeoutMs base all rrIndex rest in
      (res :: ress, rrIndex)
  end.

End Dispatcher.

(** ** The account manager (class [DreaminaAccount]) *)

Module Manager.

(** What [tokenManager.login] hands back on success. *)
Record LoginResult := mkLoginResult {
  lr_sessionid : option string;
  lr_expires : option Z
}.

Inductive LoginOutcome :=
  | LoggedIn (result : LoginResult)
  | LoginNull
  | LoginThrew.

Inductive RefreshOutcome :=
  | Refreshed (updatedAccount : Account)
  | RefreshNull
  | RefreshThrew.

Inductive SaveOutcome :=
  | Saved
  | SaveThrew.

(** The object literal passed to [dataPersistence.saveAccount]. *)
Record SaveData := mkSaveData {
  sd_email : option string;
  sd_password : string;
  sd_token : option string;
  sd_expires : option Z;
  sd_sessionid : option string;
  sd_sessionid_expires : option Z
}.

(** Calls that leave the manager, in the order they are made. *)
Inductive Event :=
  | LoginCall (email password : string)
  | RefreshCall (account : Account)
  | SaveCall (email : string) (data : SaveData)
  | Delay (ms : Z).

(** The instance fields together with the log of outgoing calls. *)
Record State := mkState {
  dreaminaAccounts : list Account;
  isInitialized : bool;
  calls : list Event
}.

(** Methods are state transformers over [State]. *)
Definition M (A : Type) : Type := State → A * State.

#[global] Instance M_ret : MRet M := λ A x s, (x, s).
#[global] Instance M_bind : MBind M := λ A B f m s, let '(a, s') := m s in f a s'.

Definition getAllAccounts : M (list Account) :=
  λ s, (dreaminaAccounts s, s).

Definition getInitialized : M bool :=
  λ s, (isInitialized s, s).

Definition setAllAccounts (accounts : list Account) : M unit :=
  λ s, ((), {| dreaminaAccounts := accounts;
               isInitialized := isInitialized s;
               calls := calls s |}).

Definition emit (ev : Event) : M unit :=
  λ s, ((), {| dreaminaAccounts := dreaminaAccounts s;
               isInitialized := isInitialized s;
               calls := calls s ++ [ev] |}).

(** The record saved after a refresh. *)
Definition refreshedData (updatedAccount : Account) : SaveData :=
  {| sd_email := None;
     sd_password := password updatedAccount;
     sd_token := token updatedAccount;
     sd_expires := expires updatedAccount;
     sd_sessionid := sessionid updatedAccount;
     sd_sessionid_expires := sessionid_expires updatedAccount |}.

(** The record saved after an add: [newAccount] itself. *)
Definition newAccountData (newAccount : Account) : SaveData :=
  {| sd_email := Some (email newAccount);
     sd_password := password newAccount;
     sd_token := None;
     sd_expires := None;
     sd_sessionid := sessionid newAccount;
     sd_sessionid_expires := sessionid_expires newAccount |}.

(** The accounts handed to [refreshSessionId], read off the log. *)
Definition refreshCalls (log : list Event) : list Account :=
  omap (λ ev, match ev with RefreshCall account => Some account | _ => None end) log.

Section Collaborators.

(** [tokenManager.login], [tokenManager.refreshSessionId],
    [tokenManager.isSessionIdExpiringSoon] and [dataPersistence.saveAccount]. *)
Variable login : string → string → LoginOutcome.
Variable refreshSessionId : Account → RefreshOutcome.
Variable isSessionIdExpiringSoon : option Z → Z → bool.
Variable saveAccount : string → SaveData → SaveOutcome.

(** The body of the [for (const account of needsRefresh)] loop, on the pair
    [(successCount, failedCount)]. *)
Definition refreshOne (account : Account) (counts : nat * nat) : M (nat * nat) :=
  let '(successCount, failedCount) := counts in
  _ ← emit (RefreshCall account);
  counts ← match refreshSessionId account with
           | Refreshed updatedAccount =>
               accounts ← getAllAccounts;
               _ ← match Js.findIndex (sameEmail (email account)) accounts with
                   | Some index => setAllAccounts (<[index := updatedAccount]> accounts)
                   | None => mret ()
                   end;
               _ ← emit (SaveCall (email account) (refreshedData updatedAccount));
               match saveAccount (email account) (refreshedData updatedAccount) with
               | Saved => mret (S successCount, failedCount)
               | SaveThrew => mret (successCount, S failedCount)
               end
           | RefreshNull => mret (successCount, S failedCount)
           | RefreshThrew => mret (successCount, S failedCount)
           end;
  _ ← emit (Delay 2000);
  mret counts.

Fixpoint refreshLoop (needsRefresh : list Account) (counts : nat * nat) : M (nat * nat) :=
  match needsRefresh with
  | [] => mret counts
  | account :: rest =>
      counts ← refreshOne account counts;
      refreshLoop rest counts
  end.

Definition autoRefreshSessionIds (thresholdHours : Z) : M nat :=
  initialized ← getInitialized;
  if negb initialized then mret 0
  else
    accounts ← getAllAccounts;
    let needsRefresh :=
      List.filter
        (λ account, isSessionIdExpiringSoon (sessionid_expires account) thresholdHours)
        accounts in
    if decide (length needsRefresh = 0) then mret 0
    else
      counts ← refreshLoop needsRefresh (0, 0);
      mret counts.1.

(** The timer callback [() => this.autoRefreshSessionIds()]: the scan with
    the default [thresholdHours = 24]. *)
Definition scheduledTick : M nat := autoRefreshSessionIds 24.

(** A refresh attempt fails when [refreshSessionId] returns [null] or
    throws. *)
Definition refreshFailed (account : Account) : bool :=
  match refreshSessionId account with
  | Refreshed _ => false
  | RefreshNull | RefreshThrew => true
  end.

(** The iteration for [account] reaches [successCount++]: the refresh gave a
    record and saving it did not throw. *)
Definition iterationSucceeded (account : Account) : bool :=
  match refreshSessionId account with
  | Refreshed updatedAccount =>
      match saveAccount (email account) (refreshedData updatedAccount) with
      | Saved => true
      | SaveThrew => false
      end
  | RefreshNull | RefreshThrew => false
  end.

(** The refresh gave a record, the store took it, and saving it threw: the
    iteration ends in the [catch] with [failedCount++]. *)
Definition saveFailed (account : Account) : bool :=
  match refreshSessionId account with
  | Refreshed updatedAccount =>
      match saveAccount (email account) (refreshedData updatedAccount) with
      | Saved => false
      | SaveThrew => true
      end
  | RefreshNull | RefreshThrew => false
  end.

Definition addAccount (email password : string) : M bool :=
  accounts ← getAllAccounts;
  match Js.find (sameEmail email) accounts with
  | Some existingAccount => mret false
  | None =>
      _ ← emit (LoginCall email password);
      match login email password with
      | LoginThrew => mret false
      | LoginNull => mret false
      | LoggedIn result =>
          let newAccount :=
            mkAccount email password None None (lr_sessionid result) (lr_expires result) in
          accounts ← getAllAccounts;
          _ ← setAllAccounts (accounts ++ [newAccount]);
          _ ← emit (SaveCall email (newAccountData newAccount));
          match saveAccount email (newAccountData newAccount) with
          | Saved => mret true
          | SaveThrew => mret false
          end
      end
  end.

End Collaborators.

(** How an [async] method without a [try] of its own ends: it returns, or
    what a collaborator threw goes on to the caller. *)
Inductive Completion (A : Type) :=
  | Returned (a : A)
  | Thrown.
Arguments Returned {A} a.
Arguments Thrown {A}.

(** What [dataPersistence.loadAccounts()] gives. *)
Inductive LoadOutcome :=
  | Loaded (allAccounts : list Account)
  | LoadThrew.

Definition setInitialized (b : bool) : M unit :=
  λ s, ((), {| dreaminaAccounts := dreaminaAccounts s;
               isInitialized := b;
               calls := calls s |}).

(** The waits of [_delay], read off the log. *)
Definition delays (log : list Event) : list Z :=
  omap (λ ev, match ev with Delay ms => Some ms | _ => None end) log.

(** The saves, read off the log. *)
Definition saveCalls (log : list Event) : list (string * SaveData) :=
  omap (λ ev, match ev with SaveCall email data => Some (email, data) | _ => None end) log.

(** The logins, read off the log. *)
Definition loginCalls (log : list Event) : list (string * string) :=
  omap (λ ev, match ev with LoginCall email password => Some (email, password) | _ => None end)
    log.

(** [this.dreaminaAccounts.splice(index, 1)] after the [findIndex]. *)
Definition removeAccount (email : string) : M bool :=
  accounts ← getAllAccounts;
  match Js.findIndex (sameEmail email) accounts with
  | None => mret false
  | Some index =>
      _ ← setAllAccounts (delete index accounts);
      mret true
  end.

(** [addAccount] touches the manager in two turns of the event loop, and
    other calls can run between them.  The first turn goes up to
    [await this.tokenManager.login(email, password)]: the duplicate check
    and the call of [login]; [false] when the method has returned at the
    check, [true] when it now waits for [login]. *)
Definition addAccountCheck (email password : string) : M bool :=
  accounts ← getAllAccounts;
  match Js.find (sameEmail email) accounts with
  | Some existingAccount => mret false
  | None =>
      _ ← emit (LoginCall email password);
      mret true
  end.

Section Resume.

Variable saveAccount : string → SaveData → SaveOutcome.

(** The second turn, from the moment [login] has settled with [outcome]:
    the [push] and the call of [saveAccount], with the value the method
    returns once the save has settled. *)
Definition addAccountResume (email password : string) (outcome : LoginOutcome) : M bool :=
  match outcome with
  | LoginThrew => mret false
  | LoginNull => mret false
  | LoggedIn result =>
      let newAccount :=
        mkAccount email password None None (lr_sessionid result) (lr_expires result) in
      accounts ← getAllAccounts;
      _ ← setAllAccounts (accounts ++ [newAccount]);
      _ ← emit (SaveCall email (newAccountData newAccount));
      match saveAccount email (newAccountData newAccount) with
      | Saved => mret true
      | SaveThrew => mret false
      end
  end.

End Resume.

Section Lifecycle.

(** [tokenManager.login], [tokenManager.refreshSessionId],
    [tokenManager.validateSessionId], [dataPersistence.saveAccount] and the
    outcome of [dataPersistence.loadAccounts()]. *)
Variable login : string → string → LoginOutcome.
Variable refreshSessionId : Account → RefreshOutcome.
Variable validateSessionId : string → option Z → bool.
Variable saveAccount : string → SaveData → SaveOutcome.
Variable persisted : LoadOutcome.

(** [refreshAccount] has no [try]: a throw of [refreshSessionId] or of
    [saveAccount] leaves the method. *)
Definition refreshAccount (email : string) : M (Completion bool) :=
  accounts ← getAllAccounts;
  match Js.find (sameEmail email) accounts with
  | None => mret (Returned false)
  | Some account =>
      _ ← emit (RefreshCall account);
      match refreshSessionId account with
      | RefreshThrew => mret Thrown
      | RefreshNull => mret (Returned false)
      | Refreshed updatedAccount =>
          accounts ← getAllAccounts;
          _ ← match Js.findIndex (sameEmail email) accounts with
              | Some index => setAllAccounts (<[index := updatedAccount]> accounts)
              | None => mret ()
              end;
          _ ← emit (SaveCall email (refreshedData updatedAccount));
          match saveAccount email (refreshedData updatedAccount) with
          | Saved => mret (Returned true)
          | SaveThrew => mret Thrown
          end
      end
  end.

(** [account.sessionid = result.sessionid; account.sessionid_expires =
    result.expires] *)
Definition withSession (account : Account) (result : LoginResult) : Account :=
  {| email := email account; password := password account;
     token := token account; expires := expires account;
     sessionid := lr_sessionid result; sessionid_expires := lr_expires result |}.

(** The loop of [_validateAndCleanSessionIds] over the accounts still to
    look at, with [validAccounts] as collected so far.  A throw of [login]
    leaves the method. *)
Fixpoint validateLoop (accounts validAccounts : list Account) : M (Completion (list Account)) :=
  match accounts with
  | [] => mret (Returned validAccounts)
  | account :: rest =>
      if Js.truthy (sessionid account) &&
         validateSessionId (default "" (sessionid account)) (sessionid_expires account)
      then validateLoop rest (validAccounts ++ [account])
      else if Js.truthy (Some (email account)) && Js.truthy (Some (password account)) then
        _ ← emit (LoginCall (email account) (password account));
        match login (email account) (password account) with
        | LoggedIn result => validateLoop rest (validAccounts ++ [withSession account result])
        | LoginNull => validateLoop rest validAccounts
        | LoginThrew => mret Thrown
        end
      else validateLoop rest validAccounts
  end.

Definition _validateAndCleanSessionIds : M (Completion unit) :=
  accounts ← getAllAccounts;
  r ← validateLoop accounts [];
  match r with
  | Returned validAccounts =>
      _ ← setAllAccounts validAccounts;
      mret (Returned ())
  | Thrown => mret Thrown
  end.

(** [loadAccounts]: whatever is thrown inside ends in
    [this.dreaminaAccounts = []]. *)
Definition loadAccounts : M unit :=
  match persisted with
  | LoadThrew => setAllAccounts []
  | Loaded allAccounts =>
      _ ← setAllAccounts
            (List.filter
               (λ account, Js.truthy (sessionid account) ||
                           Js.truthyNumber (sessionid_expires account))
               allAccounts);
      r ← _validateAndCleanSessionIds;
      match r with
      | Returned _ => mret ()
      | Thrown => setAllAccounts []
      end
  end.

(** [_initialize], for the values of [config.autoRefresh] and
    [config.autoRefreshInterval] (a whole number of seconds): the period in
    milliseconds of the timer it starts, which is the delay that
    [setInterval] makes of its argument, and [None] when it starts none. *)
Definition _initialize (autoRefresh : bool) (autoRefreshInterval : option Z) : M (option Z) :=
  _ ← loadAccounts;
  let refreshInterval :=
    if autoRefresh
    then Some (Js.setIntervalDelay (Js.numberOr autoRefreshInterval 21600 * 1000))%Z
    else None in
  _ ← setInitialized true;
  mret refreshInterval.

(** What the loop of [_validateAndCleanSessionIds] does with one account:
    a session that validates keeps the account as it is; otherwise an
    account with an e-mail and a password takes part in a login. *)
Definition sessionValid (account : Account) : bool :=
  Js.truthy (sessionid account) &&
  validateSessionId (default "" (sessionid account)) (sessionid_expires account).

Definition needsLogin (account : Account) : bool :=
  negb (sessionValid account) &&
  (Js.truthy (Some (email account)) && Js.truthy (Some (password account))).

Definition loginThrows (account : Account) : bool :=
  needsLogin account &&
  match login (email account) (password account) with
  | LoginThrew => true
  | LoggedIn _ | LoginNull => false
  end.

Definition revalidated (account : Account) : option Account :=
  if sessionValid account then Some account
  else if needsLogin account then
    match login (email account) (password account) with
    | LoggedIn result => Some (withSession account result)
    | LoginNull | LoginThrew => None
    end
  else None.

(** The filter at the head of [loadAccounts]. *)
Definition hasSession (account : Account) : bool :=
  Js.truthy (sessionid account) || Js.truthyNumber (sessionid_expires account).

End Lifecycle.

End Manager.

(** ** The account routes ([/setAccounts], [/refreshAllAccounts],
       [/forceRefreshAllAccounts]) *)

Module Routes.

Import Manager.

Definition consHead (c : ascii) (parts : list string) : list string :=
  match parts with
  | [] => [String c EmptyString]
  | p :: rest => String c p :: rest
  end.

(** [s.split(':')] *)
Fixpoint split (sep : ascii) (s : string) : list string :=
  match s with
  | EmptyString => [EmptyString]
  | String c rest =>
      if decide (c = sep) then EmptyString :: split sep rest
      else consHead c (split sep rest)
  end.

(** [s.split(/\r?\n/)] *)
Fixpoint splitLines (s : string) : list string :=
  match s with
  | EmptyString => [EmptyString]
  | String c rest =>
      if decide (c = "010"%char) then EmptyString :: splitLines rest
      else
        match rest with
        | String c' rest' =>
            if decide (c = "013"%char ∧ c' = "010"%char)
            then EmptyString :: splitLines rest'
            else consHead c (splitLines rest)
        | EmptyString => consHead c (splitLines rest)
        end
  end.

(** White space in the sense of [trim], among the code units below 256. *)
Definition isWhiteSpace (c : ascii) : bool :=
  bool_decide (nat_of_ascii c ∈ [9; 10; 11; 12; 13; 32; 160]).

Fixpoint trimStart (s : string) : string :=
  match s with
  | EmptyString => EmptyString
  | String c rest => if isWhiteSpace c then trimStart rest else s
  end.

Fixpoint trimEnd (s : string) : string :=
  match s with
  | EmptyString => EmptyString
  | String c rest =>
      match trimEnd rest with
      | EmptyString => if isWhiteSpace c then EmptyString else String c EmptyString
      | rest' => String c rest'
      end
  end.

Definition trim (s : string) : string := trimEnd (trimStart s).

(** [accounts.split(/\r?\n/).map(item => item.trim()).filter(item => item !== '')] *)
Definition parseList (accounts : string) : list string :=
  List.filter (λ item, negb (bool_decide (item = ""))) (trim <$> splitLines accounts).




(** The payload of the [account:batchAdd:done] event, without its [jobId]. *)
Record BatchDone := mkBatchDone {
  total : nat;
  successCount : nat;
  failed : list (string * string)
}.

(** The immediate answer (400, or 202 with [total]) and, for a 202, the
    event broadcast when the job is over. *)
Inductive SetAccountsResult :=
  | BadRequest
  | Accepted (total : nat) (event : BatchDone).

Record RefreshAllResponse := mkRefreshAllResponse {
  refreshedCount : nat;
  thresholdHours : Z
}.

Record ForceRefreshAllResponse := mkForceRefreshAllResponse {
  force_refreshedCount : nat;
  totalAccounts : nat
}.

Section Collaborators.

Variable login : string → string → LoginOutcome.
Variable refreshSessionId : Account → RefreshOutcome.
Variable isSessionIdExpiringSoon : option Z → Z → bool.
Variable saveAccount : string → SaveData → SaveOutcome.

(** The body of the [for (const line of list)] loop on the pair
    [(successCount, failed)].  [addAccount] catches whatever it throws, so
    the [catch] around it has no case of its own here. *)
Definition batchOne (line : string) (acc : nat * list (string * string)) : M (nat * list (string * string)) :=
  let '(successCount, failed) := acc in
  let parts := split ":" line in
  let email := parts !! 0 in
  let password := parts !! 1 in
  if negb (Js.truthy email) || negb (Js.truthy password) then mret acc
  else
    let email := default "" email in
    let password := default "" password in
    all ← getAllAccounts;
    match Js.find (sameEmail email) all with
    | Some exists_ => mret (successCount, failed ++ [(email, "exists")])
    | None =>
        ok ← addAccount login saveAccount email password;
        if ok : bool then mret (S successCount, failed)
        else mret (successCount, failed ++ [(email, "failed")])
    end.

Fixpoint batchLoop (lines : list string) (acc : nat * list (string * string)) : M (nat * list (string * string)) :=
  match lines with
  | [] => mret acc
  | line :: rest =>
      acc ← batchOne line acc;
      batchLoop rest acc
  end.

(** [POST /setAccounts]: the immediate answer and the completion event of
    the job started with [setImmediate]. *)
Definition setAccounts (accounts : option string) : M SetAccountsResult :=
  if negb (Js.truthy accounts) then mret BadRequest
  else
    let lines := parseList (default "" accounts) in
    acc ← batchLoop lines (0, []);
    mret (Accepted (length lines)
            {| total := length lines; successCount := acc.1; failed := acc.2 |}).

(** [POST /refreshAllAccounts], [thresholdHours] defaulting to 24. *)
Definition refreshAllAccounts (bodyThresholdHours : option Z) : M RefreshAllResponse :=
  let thresholdHours := default 24%Z bodyThresholdHours in
  refreshedCount ←
    autoRefreshSessionIds refreshSessionId isSessionIdExpiringSoon saveAccount thresholdHours;
  mret {| refreshedCount := refreshedCount; thresholdHours := thresholdHours |}.

(** [POST /forceRefreshAllAccounts] *)
Definition forceRefreshAllAccounts : M ForceRefreshAllResponse :=
  refreshedCount ←
    autoRefreshSessionIds refreshSessionId isSessionIdExpiringSoon saveAccount 8760%Z;
  all ← getAllAccounts;
  mret {| force_refreshedCount := refreshedCount; totalAccounts := length all |}.

End Collaborators.

(** What [/getAllAccounts] shows of an account. *)
Record AccountView := mkAccountView {
  v_email : string;
  v_password : string;
  v_sessionid : option string;
  v_sessionid_expires : option Z
}.

Definition viewOf (account : Account) : AccountView :=
  {| v_email := email account; v_password := password account;
     v_sessionid := sessionid account; v_sessionid_expires := sessionid_expires account |}.

Record AccountsPage := mkAccountsPage {
  pg_total : nat;
  pg_page : Z;
  pg_pageSize : Z;
  pg_data : list AccountView
}.

(** [GET /getAllAccounts], from the values of [parseInt(req.query.page)] and
    [parseInt(req.query.pageSize)]. *)
Definition routeGetAllAccounts (page pageSize : option Z) : M AccountsPage :=
  let page := Js.numberOr page 1 in
  let pageSize := Js.numberOr pageSize 1000 in
  let start := ((page - 1) * pageSize)%Z in
  allAccounts ← getAllAccounts;
  let paginatedAccounts := Js.slice allAccounts start (start + pageSize)%Z in
  mret {| pg_total := length allAccounts; pg_page := page; pg_pageSize := pageSize;
          pg_data := viewOf <$> paginatedAccounts |}.

(** The answers of [/setAccount]: 400, 409, or 202 followed by the
    [account:add:done] event with its [success]. *)
Inductive SetAccountResult :=
  | SetAccountBadRequest
  | SetAccountConflict
  | SetAccountAccepted (success : bool).

Section MoreRoutes.

Variable login : string → string → LoginOutcome.
Variable refreshSessionId : Account → RefreshOutcome.
Variable saveAccount : string → SaveData → SaveOutcome.
(** [dataPersistence.saveAllAccounts] *)
Variable saveAllAccounts : list Account → SaveOutcome.

(** [POST /setAccount] with the job it starts.  [addAccount] catches
    whatever it throws, so the [catch] of the job has no case here. *)
Definition routeSetAccount (email password : option string) : M SetAccountResult :=
  if negb (Js.truthy email) || negb (Js.truthy password) then mret SetAccountBadRequest
  else
    let email := default "" email in
    let password := default "" password in
    all ← getAllAccounts;
    match Js.find (sameEmail email) all with
    | Some exists_ => mret SetAccountConflict
    | None =>
        success ← addAccount login saveAccount email password;
        mret (SetAccountAccepted success)
    end.


(** [POST /refreshAccount]: the status of the answer. *)
Definition routeRefreshAccount (email : option string) : M Z :=
  if negb (Js.truthy email) then mret 400%Z
  else
    let email := default "" email in
    all ← getAllAccounts;
    match Js.find (sameEmail email) all with
    | None => mret 404%Z
    | Some exists_ =>
        success ← refreshAccount refreshSessionId saveAccount email;
        match success with
        | Returned true => mret 200%Z
        | Returned false => mret 500%Z
        | Thrown => mret 500%Z
        end
    end.

End MoreRoutes.

End Routes.

(** * Properties *)

(** ** String primitives *)

Lemma startsWith_app (p r : string) : Js.startsWith (p +:+ r) p = true.
Proof.
  induction p as [|a p IH]; simpl; [done|].
  by rewrite decide_True.
Qed.

Lemma startsWith_inv (s p : string) :
  Js.startsWith s p = true → ∃ r, s = p +:+ r.
Proof.
  revert s. induction p as [|a p IH]; intros s Hs; simpl in *.
  - by exists s.
  - destruct s as [|b s]; [done|].
    case_decide as Hab; [|done]. subst b.
    destruct (IH _ Hs) as [r ->]. by exists r.
Qed.

Lemma stripPrefix_app (p r : string) : Js.stripPrefix p (p +:+ r) = Some r.
Proof.
  induction p as [|a p IH]; simpl; [done|].
  by rewrite decide_True.
Qed.

Lemma stripPrefix_startsWith (p s : string) :
  Js.stripPrefix p s = None ↔ Js.startsWith s p = false.
Proof.
  revert s. induction p as [|a p IH]; intros s; simpl.
  - split; intros; done.
  - destruct s as [|b s]; [done|]. case_decide; [apply IH|done].
Qed.

Lemma replaceTrailingSlash_slash (b : string) :
  Js.replaceTrailingSlash (b +:+ "/") = b.
Proof.
  induction b as [|c b IH]; [done|].
  change (String c b +:+ "/") with (String c (b +:+ "/")).
  simpl. rewrite IH. by destruct b.
Qed.

Lemma replaceTrailingSlash_other (s : string) :
  (∀ b, s ≠ b +:+ "/") → Js.replaceTrailingSlash s = s.
Proof.
  induction s as [|c s IH]; intros Hs; [done|].
  assert (Js.replaceTrailingSlash s = s) as IH'.
  { apply IH. intros b ->. by apply (Hs (String c b)). }
  destruct s as [|c' s'].
  - simpl. case_decide as Hc; [|done]. subst c. by destruct (Hs "").
  - change (Js.replaceTrailingSlash (String c (String c' s')))
      with (String c (Js.replaceTrailingSlash (String c' s'))).
    by rewrite IH'.
Qed.

(** ** Account selector *)

Lemma truthy_Some (o : option string) :
  Js.truthy o = true ↔ ∃ v, o = Some v ∧ v ≠ "".
Proof.
  destruct o as [[|c v]|]; simpl; split; try done.
  - by intros (v & [= <-] & Hv).
  - intros _. by eexists.
  - by intros (v & ? & _).
Qed.

Section SelectorProperties.

Import Selector.

Lemma available_truthy (all : list Account) (a : Account) :
  a ∈ available all ↔ a ∈ all ∧ Js.truthy (sessionid a) = true.
Proof.
  unfold available. rewrite !list_elem_of_In, filter_In. done.
Qed.

Lemma pickAccount_nonempty (all : list Account) (rrIndex : nat) :
  available all ≠ [] →
  pickAccount all rrIndex =
    (available all !! ((rrIndex + 1) `mod` length (available all)),
     (rrIndex + 1) `mod` length (available all)).
Proof.
  intros Hne. unfold pickAccount.
  case_decide as Hlen; [|done].
  by apply nil_length_inv in Hlen.
Qed.

Lemma pickAccount_empty (all : list Account) (rrIndex : nat) :
  available all = [] → pickAccount all rrIndex = (None, rrIndex).
Proof. intros Hnil. unfold pickAccount. by rewrite Hnil. Qed.

Lemma pickMany_picks (all : list Account) (n rrIndex : nat) :
  available all ≠ [] →
  (pickMany n all rrIndex).1 =
    (λ i, available all !! ((rrIndex + 1 + i) `mod` length (available all))) <$> seq 0 n.
Proof.
  intros Hne.
  assert (length (available all) ≠ 0) as Hlen by (by destruct (available all)).
  revert rrIndex. induction n as [|n IH]; intros rrIndex; [done|].
  simpl. rewrite pickAccount_nonempty by done.
  specialize (IH ((rrIndex + 1) `mod` length (available all))).
  destruct (pickMany n all _) as [rest rr2]. simpl in *.
  rewrite Nat.add_0_r. f_equal.
  rewrite IH, <-fmap_S_seq, <-list_fmap_compose.
  apply list_fmap_ext. intros _ i _. simpl. f_equal.
  rewrite <-Nat.add_assoc, Nat.Div0.add_mod_idemp_l. f_equal; lia.
Qed.

Lemma pickMany_counter (all : list Account) (n rrIndex : nat) :
  available all ≠ [] →
  (pickMany (S n) all rrIndex).2 = (rrIndex + S n) `mod` length (available all).
Proof.
  intros Hne. revert rrIndex. induction n as [|n IH]; intros rrIndex.
  - simpl. by rewrite pickAccount_nonempty.
  - change (pickMany (S (S n)) all rrIndex) with
      (let '(a, rr1) := pickAccount all rrIndex in
       let '(rest, rr2) := pickMany (S n) all rr1 in (a :: rest, rr2)).
    rewrite pickAccount_nonempty by done.
    specialize (IH ((rrIndex + 1) `mod` length (available all))).
    destruct (pickMany (S n) all _) as [rest rr2]. simpl in *. subst rr2.
    rewrite Nat.Div0.add_mod_idemp_l. f_equal; lia.
Qed.

Lemma rotate_Permutation {A} (n : nat) (l : list A) : rotate n l ≡ₚ l.
Proof.
  unfold rotate. rewrite Permutation_app_comm. by rewrite take_drop.
Qed.

Lemma picks_rotate (av : list Account) (rrIndex : nat) :
  av ≠ [] →
  (λ i, av !! ((rrIndex + 1 + i) `mod` length av)) <$> seq 0 (length av) =
  Some <$> rotate (S rrIndex) av.
Proof.
  intros Hne.
  assert (0 < length av) as Hlen by (destruct av; [done|simpl; lia]).
  apply list_eq. intros i. rewrite !list_lookup_fmap.
  destruct (decide (i < length av)) as [Hi|Hi].
  - rewrite lookup_seq_lt by done. rewrite lookup_rotate_r by done. simpl.
    assert (is_Some (av !! rotate_nat_add (S rrIndex) i (length av))) as [x Hx].
    { apply lookup_lt_is_Some. by apply rotate_nat_add_lt. }
    rewrite Hx. simpl. rewrite <-Hx. f_equal.
    unfold rotate_nat_add.
    rewrite Z2Nat.inj_mod, Z2Nat.inj_add, !Nat2Z.id by lia.
    by replace (rrIndex + 1 + i) with (S rrIndex + i) by lia.
  - rewrite lookup_seq_ge by lia.
    rewrite (lookup_ge_None_2 (rotate _ _)); [done|].
    rewrite length_rotate. lia.
Qed.

(** C2.  On a store whose token-bearing accounts are a list of [N >= 1]
    accounts, and from any value of the counter [rrIndex], [N] consecutive
    calls of [pickAccount] return the token-bearing accounts in the cyclic
    order that starts after position [rrIndex] (the filtered list rotated by
    [rrIndex + 1]); this is a permutation of the filtered list, so every
    one of them is returned exactly once; the next [N] calls repeat the
    same order. *)
Theorem pickAccount_round_robin (all : list Account) (rrIndex : nat) :
  1 ≤ length (available all) →
  let N := length (available all) in
  let order := rotate (S rrIndex) (available all) in
  (pickMany N all rrIndex).1 = Some <$> order ∧
  order ≡ₚ available all ∧
  (pickMany N all (pickMany N all rrIndex).2).1 = Some <$> order.
Proof.
  intros HN N order.
  assert (available all ≠ []) as Hne by (intros Hnil; rewrite Hnil in HN; simpl in HN; lia).
  split_and!.
  - subst N order. rewrite pickMany_picks by done. by apply picks_rotate.
  - apply rotate_Permutation.
  - subst N order. destruct (length (available all)) as [|n] eqn:Hlen; [lia|].
    rewrite pickMany_counter by done. rewrite <-Hlen.
    rewrite pickMany_picks by done. rewrite <-picks_rotate by done.
    apply list_fmap_ext. intros _ i _. simpl. f_equal.
    rewrite Hlen at 1.
    rewrite <-!Nat.add_assoc, Nat.Div0.add_mod_idemp_l.
    replace (rrIndex + S n + (1 + i)) with (rrIndex + (1 + i) + 1 * S n) by lia.
    rewrite <-Hlen. by rewrite Nat.Div0.mod_add.
Qed.

Lemma pickAccount_round_robin_witness :
  let all := [mkAccount "a@x" "pa" None None (Some "t1") None;
              mkAccount "b@x" "pb" None None None None;
              mkAccount "c@x" "pc" None None (Some "us-t3") None;
              mkAccount "d@x" "pd" None None (Some "t4") None] in
  (pickMany 3 all 7).1 = Some <$> rotate 8 (available all) ∧
  rotate 8 (available all) ≡ₚ available all ∧
  (pickMany 3 all (pickMany 3 all 7).2).1 = Some <$> rotate 8 (available all).
Proof.
  intros all. apply (pickAccount_round_robin all 7). simpl. lia.
Defined.

Lemma pickAccount_Some (all : list Account) (rrIndex : nat) (account : Account) :
  (pickAccount all rrIndex).1 = Some account →
  account ∈ all ∧ Js.truthy (sessionid account) = true.
Proof.
  destruct (decide (available all = [])) as [Hnil|Hne].
  - by rewrite pickAccount_empty.
  - rewrite pickAccount_nonempty by done. simpl. intros Hpick.
    apply available_truthy. by eapply list_elem_of_lookup_2.
Qed.

Lemma pickAccount_nonempty_Some (all : list Account) (rrIndex : nat) :
  available all ≠ [] → is_Some (pickAccount all rrIndex).1.
Proof.
  intros Hne. rewrite pickAccount_nonempty by done. simpl.
  apply lookup_lt_is_Some_2, Nat.mod_upper_bound.
  by destruct (available all).
Qed.

(** C7.  [pickAccount] returns [null] exactly when no account of the store
    holds a non-empty [sessionid] (each has none, or the empty string); an
    account it returns is one of the store and its [sessionid] is a
    non-empty string.  Both hold from every value of the counter. *)
Theorem pickAccount_null_iff (all : list Account) (rrIndex : nat) :
  ((pickAccount all rrIndex).1 = None ↔
     ∀ a, a ∈ all → sessionid a = None ∨ sessionid a = Some "") ∧
  (∀ account, (pickAccount all rrIndex).1 = Some account →
     account ∈ all ∧ ∃ t, sessionid account = Some t ∧ t ≠ "").
Proof.
  split.
  - split.
    + intros Hnone a Ha.
      destruct (sessionid a) as [[|c t]|] eqn:Hsid; [by right| |by left].
      exfalso.
      assert (available all ≠ []) as Hne.
      { intros Hnil. assert (a ∈ available all) as Hin; [|by rewrite Hnil in Hin; inversion Hin].
        apply available_truthy. by rewrite Hsid. }
      destruct (pickAccount_nonempty_Some all rrIndex Hne) as [picked Hpicked]. congruence.
    + intros Hall. destruct (pickAccount all rrIndex).1 as [account|] eqn:Hpick; [|done].
      apply pickAccount_Some in Hpick as [Hin Htok].
      destruct (Hall account Hin) as [Hsid|Hsid]; by rewrite Hsid in Htok.
  - intros account Hpick. apply pickAccount_Some in Hpick as [Hin Htok].
    split; [done|]. by apply truthy_Some.
Qed.

End SelectorProperties.

(** ** Dispatcher *)

Section DispatcherProperties.

Import Dispatcher.

Lemma normalizeSessionId_startsWith (sessionid : string) :
  Js.startsWith (normalizeSessionId sessionid) "us-" = true.
Proof.
  unfold normalizeSessionId.
  destruct (Js.startsWith sessionid "us-") eqn:Hs; [done|].
  apply startsWith_app.
Qed.

(** C8.  The normalized token begins with the prefix [us-]; normalizing is
    idempotent; and the prefix is put exactly once in front of the bare
    token: the result is [us-] followed by [bare], where the input is either
    [bare] itself (it had no prefix) or already [us-] followed by [bare]. *)
Theorem normalizeSessionId_prefix_once (sessionid : string) :
  Js.startsWith (normalizeSessionId sessionid) "us-" = true ∧
  normalizeSessionId (normalizeSessionId sessionid) = normalizeSessionId sessionid ∧
  ∃ bare, normalizeSessionId sessionid = "us-" +:+ bare ∧
          ((sessionid = bare ∧ Js.startsWith sessionid "us-" = false) ∨
           sessionid = "us-" +:+ bare).
Proof.
  split_and!.
  - apply normalizeSessionId_startsWith.
  - unfold normalizeSessionId at 1.
    by rewrite normalizeSessionId_startsWith.
  - unfold normalizeSessionId.
    destruct (Js.startsWith sessionid "us-") eqn:Hs.
    + destruct (startsWith_inv _ _ Hs) as [bare ->]. exists bare. auto.
    + exists sessionid. auto.
Qed.

Lemma pathWithoutApi_prefixed (rest : string) :
  pathWithoutApi ("/api" +:+ rest) = rest.
Proof. unfold pathWithoutApi, Js.replacePrefix. by rewrite stripPrefix_app. Qed.

Lemma pathWithoutApi_other (p : string) :
  Js.startsWith p "/api" = false → pathWithoutApi p = p.
Proof.
  intros Hp. unfold pathWithoutApi, Js.replacePrefix.
  apply stripPrefix_startsWith in Hp. by rewrite Hp.
Qed.

(** [req.originalUrl || req.url || '']: the first of the two that is a
    non-empty string, the empty string when neither is. *)
Lemma originalPath_inbound (req : Request) (p : string) :
  (originalUrl req = Some p ∧ p ≠ "" ∨
   (originalUrl req = None ∨ originalUrl req = Some "") ∧
     (url req = Some p ∧ p ≠ "" ∨
      (url req = None ∨ url req = Some "") ∧ p = "")) →
  originalPath req = p.
Proof.
  unfold originalPath.
  intros [[-> Hp]|[Horig [[-> Hp]|[Hurl ->]]]].
  - by destruct p.
  - destruct Horig as [->| ->]; by destruct p.
  - by destruct Horig as [->| ->], Hurl as [->| ->].
Qed.

(** C5.  The URL handed to [axios], for every request and base.  The
    inbound path [p] is [req.originalUrl], or [req.url] when that one is
    missing or empty (the empty path when both are); [stem] is the base
    without one trailing slash.  When [p] is [/api] followed by [rest], the
    URL is [stem] followed by exactly [rest] (a second [/api] at the head of
    [rest] stays); when [p] does not begin with [/api], the URL is [stem]
    followed by the whole of [p].  The request [/api/foo/bar] on
    [https://up.example] gives [https://up.example/foo/bar]. *)
Theorem targetUrl_strips_prefix (proxyTimeoutMs : Z) (base sessionId : string) (req : Request) :
  let target := ac_url (axiosConfig proxyTimeoutMs base sessionId req) in
  (∀ p stem,
     (originalUrl req = Some p ∧ p ≠ "" ∨
      (originalUrl req = None ∨ originalUrl req = Some "") ∧
        (url req = Some p ∧ p ≠ "" ∨
         (url req = None ∨ url req = Some "") ∧ p = "")) →
     (base = stem +:+ "/" ∨ stem = base ∧ ∀ b, base ≠ b +:+ "/") →
     (∀ rest, p = "/api" +:+ rest → target = stem +:+ rest) ∧
     ((∀ rest, p ≠ "/api" +:+ rest) → target = stem +:+ p)) ∧
  ac_url (axiosConfig proxyTimeoutMs "https://up.example" sessionId
            (mkRequest "GET" "/foo/bar" (Some "/api/foo/bar") (Some "/foo/bar") ∅ None))
    = "https://up.example/foo/bar" ∧
  ac_url (axiosConfig proxyTimeoutMs "https://up.example/" sessionId
            (mkRequest "GET" "/api/x" (Some "/api/api/x?n=1") (Some "/api/x?n=1") ∅ None))
    = "https://up.example/api/x?n=1".
Proof.
  intros target. split; [|by split].
  intros p stem Hp Hstem.
  assert (target = stem +:+ pathWithoutApi p) as ->.
  { subst target. unfold axiosConfig, targetUrl. simpl.
    rewrite (originalPath_inbound req p Hp). f_equal.
    destruct Hstem as [->|[-> Hno]].
    - apply replaceTrailingSlash_slash.
    - by apply replaceTrailingSlash_other. }
  split.
  - intros rest ->. by rewrite pathWithoutApi_prefixed.
  - intros Hno. rewrite pathWithoutApi_other; [done|].
    destruct (Js.startsWith p "/api") eqn:Hs; [|done].
    destruct (startsWith_inv _ _ Hs) as [rest ->]. by destruct (Hno rest).
Qed.

Lemma lookup_delete_truthy (m : gmap string string) (h k : string) :
  (if Js.truthy (m !! h) then delete h m else m) !! k =
    if bool_decide (k = h) && Js.truthy (m !! k) then None else m !! k.
Proof.
  case_bool_decide as Hk.
  - subst k. destruct (Js.truthy (m !! h)); simpl; [apply lookup_delete_eq|done].
  - simpl. destruct (Js.truthy (m !! h)); [by rewrite lookup_delete_ne|done].
Qed.

Ltac split_bool_decide :=
  repeat match goal with
  | |- context [bool_decide ?P] =>
      destruct (decide P);
      [rewrite (bool_decide_eq_true_2 P) by assumption
      |rewrite (bool_decide_eq_false_2 P) by assumption]
  end.

Lemma removeHeader_lookup (m : gmap string string) (h k : string) :
  removeHeader m h !! k =
    if bool_decide (k ∈ [h; Js.capitalize h]) && Js.truthy (m !! k) then None else m !! k.
Proof.
  unfold removeHeader. rewrite !lookup_delete_truthy.
  destruct (Js.truthy (m !! k)) eqn:Ht;
    split_bool_decide; simpl; rewrite ?Ht; simpl; try done;
    set_unfold; intuition congruence.
Qed.

Lemma foldl_removeHeader_lookup (hs : list string) (m : gmap string string) (k : string) :
  foldl removeHeader m hs !! k =
    if bool_decide (k ∈ hs ≫= λ h, [h; Js.capitalize h]) && Js.truthy (m !! k)
    then None else m !! k.
Proof.
  revert m. induction hs as [|h hs IH]; intros m; [done|].
  change (foldl removeHeader m (h :: hs)) with (foldl removeHeader (removeHeader m h) hs).
  rewrite IH, removeHeader_lookup.
  change ((h :: hs) ≫= λ h, [h; Js.capitalize h])
    with ([h; Js.capitalize h] ++ (hs ≫= λ h, [h; Js.capitalize h])).
  destruct (Js.truthy (m !! k)) eqn:Ht;
    split_bool_decide; simpl; rewrite ?Ht; simpl; try done;
    set_unfold; intuition congruence.
Qed.

(** Every header of the outbound request, by its name. *)
Lemma outboundHeaders_lookup (reqHeaders : gmap string string) (sessionId k : string) :
  outboundHeaders reqHeaders sessionId !! k =
    if decide (k = "authorization") then Some ("Bearer " +:+ sessionId)
    else if bool_decide (k ∈ removedSpellings) && Js.truthy (reqHeaders !! k) then None
    else reqHeaders !! k.
Proof.
  unfold outboundHeaders. case_decide as Hk.
  - subst k. apply lookup_insert_eq.
  - rewrite lookup_insert_ne by done. apply foldl_removeHeader_lookup.
Qed.

Lemma removedSpellings_eq :
  removedSpellings =
    ["host"; "Host"; "connection"; "Connection"; "content-length"; "Content-length";
     "transfer-encoding"; "Transfer-encoding"; "expect"; "Expect"].
Proof. reflexivity. Qed.

Lemma removedHeaders_not_authorization (h : string) :
  h ∈ removedHeaders → h ≠ "authorization" ∧ h ∈ removedSpellings.
Proof.
  rewrite removedSpellings_eq. unfold removedHeaders. intros Hin.
  repeat (apply elem_of_cons in Hin as [->|Hin];
          [split; [discriminate|set_unfold; tauto]|]).
  by apply elem_of_nil in Hin.
Qed.

(** A name in lower case, as Node gives the names of [req.headers], is
    looked up by the [forEach] only when it is one of [removedHeaders]. *)
Lemma removedSpellings_lower (k : string) :
  Js.toLowerCase k = k → k ∈ removedSpellings → k ∈ removedHeaders.
Proof.
  rewrite removedSpellings_eq. unfold removedHeaders. intros Hlow Hin.
  repeat (apply elem_of_cons in Hin as [->|Hin];
          [first [discriminate Hlow|set_unfold; tauto]|]).
  by apply elem_of_nil in Hin.
Qed.

(** C4.  The headers handed to [axios], for every request.  A header of
    [removedHeaders] that arrives with an empty value is still there: the
    guard [if (incomingHeaders[h])] takes the empty string for an absent
    header and skips the [delete].  With a non-empty value it is removed.
    [authorization] holds [Bearer] followed by the normalized token,
    whatever the inbound request had under that name, and a header under
    any other lower-case name is the inbound one.  A request that arrives
    with an empty [Connection] header and a [Host] header goes upstream
    with the former and without the latter. *)
Theorem outboundHeaders_keeps_empty_header
    (proxyTimeoutMs : Z) (base sessionId : string) (req : Request) :
  let out := ac_headers (axiosConfig proxyTimeoutMs base sessionId req) in
  let arrived := mkRequest "GET" "/v1/models" (Some "/api/v1/models") (Some "/v1/models")
                   {[ "connection" := ""; "host" := "proxy.local"; "accept" := "*/*" ]} None in
  let sent := ac_headers (axiosConfig proxyTimeoutMs base "us-token" arrived) in
  (∀ h, h ∈ removedHeaders → headers req !! h = Some "" → out !! h = Some "") ∧
  (∀ h v, h ∈ removedHeaders → headers req !! h = Some v → v ≠ "" → out !! h = None) ∧
  out !! "authorization" = Some ("Bearer " +:+ sessionId) ∧
  (∀ k, Js.toLowerCase k = k → k ∉ removedHeaders → k ≠ "authorization" →
     out !! k = headers req !! k) ∧
  sent !! "connection" = Some "" ∧
  sent !! "host" = None ∧
  sent !! "accept" = Some "*/*" ∧
  sent !! "authorization" = Some "Bearer us-token".
Proof.
  intros out arrived sent.
  change out with (outboundHeaders (headers req) sessionId).
  change sent with (outboundHeaders (headers arrived) "us-token").
  clear out sent.
  assert (headers arrived =
            {[ "connection" := ""; "host" := "proxy.local"; "accept" := "*/*" ]}) as ->
    by done.
  clear arrived.
  split_and!; [| | | |by vm_compute..].
  - intros h Hh Hv. destruct (removedHeaders_not_authorization h Hh) as [Hne Hsp].
    rewrite outboundHeaders_lookup, decide_False by done.
    by rewrite Hv, andb_false_r.
  - intros h v Hh Hv Hne. destruct (removedHeaders_not_authorization h Hh) as [Hauth Hsp].
    rewrite outboundHeaders_lookup, decide_False by done.
    rewrite bool_decide_eq_true_2 by done.
    assert (Js.truthy (headers req !! h) = true) as ->; [|done].
    apply truthy_Some. eauto.
  - by rewrite outboundHeaders_lookup.
  - intros k Hlow Hk Hauth. rewrite outboundHeaders_lookup, decide_False by done.
    rewrite bool_decide_eq_false_2; [done|].
    intros Hsp. by apply Hk, removedSpellings_lower.
Qed.

Lemma handler_reaches_axios
    (axios : AxiosConfig → AxiosOutcome) (proxyTimeoutMs : Z) (base : option string)
    (all : list Account) (rrIndex : nat) (req : Request) (account : Account) :
  Js.truthy base = true →
  Js.startsWith (path req) "/dreamina" = false →
  Js.startsWith (path req) "/events" = false →
  (Selector.pickAccount all rrIndex).1 = Some account →
  (handler axios proxyTimeoutMs base all rrIndex req).1 =
    match axios (axiosConfig proxyTimeoutMs (default "" base)
                   (normalizeSessionId (default "" (sessionid account))) req) with
    | Resolved resp => onResponse resp
    | Rejected e => onError e
    end.
Proof.
  intros Hbase Hd He Hpick. unfold handler.
  rewrite Hbase, Hd, He. simpl.
  destruct (pickAccount_Some _ _ _ Hpick) as [_ Htok].
  destruct (Selector.pickAccount all rrIndex) as [picked rr']. simpl in Hpick. subst picked.
  rewrite Htok. simpl. by destruct (axios _).
Qed.

(** The answer to a request that reaches the upstream call and whose call
    is rejected is [onError] of the error: nothing of the request, its
    method included, has a part in it. *)
Lemma handler_rejected
    (proxyTimeoutMs : Z) (base : option string) (all : list Account) (rrIndex : nat)
    (req : Request) (account : Account) (e : JsError) :
  Js.truthy base = true →
  Js.startsWith (path req) "/dreamina" = false →
  Js.startsWith (path req) "/events" = false →
  (Selector.pickAccount all rrIndex).1 = Some account →
  (handler (λ _, Rejected e) proxyTimeoutMs base all rrIndex req).1 = onError e.
Proof. intros Hbase Hd He Hpick. by rewrite (handler_reaches_axios _ _ _ _ _ _ account). Qed.

(** C3.  The [catch] block takes an error for a timeout when its code is
    [ECONNABORTED] or its message holds the letters [timeout].  For a
    request of any method and body that reaches the upstream call:
    - the error that axios raises when its own [timeout] runs out
      ([ECONNABORTED], "timeout of 30000ms exceeded") is answered 504, and a
      refused connection 502;
    - the error that Node raises when the connection attempt times out
      ([ETIMEDOUT], "connect ETIMEDOUT 10.0.0.1:443") is answered 502 "bad
      gateway": its message spells the word as "TIMEDOUT";
    - the failure to resolve the host name [timeout.example] ([ENOTFOUND],
      no timeout) is answered 504 "gateway timeout": the host name holds
      the letters. *)
Theorem handler_connect_timeout_bad_gateway
    (proxyTimeoutMs : Z) (methodName : string) (body : option string) :
  let account := mkAccount "a@x" "pa" None None (Some "t1") None in
  let req := mkRequest methodName "/v1/images" (Some "/api/v1/images") (Some "/v1/images")
               {[ "accept" := "*/*" ]} body in
  let answer := λ e : JsError,
    (handler (λ _, Rejected e) proxyTimeoutMs (Some "https://up.example") [account] 0 req).1 in
  let axiosTimeout := mkJsError (Some "ECONNABORTED") (Some "timeout of 30000ms exceeded") in
  let refused := mkJsError (Some "ECONNREFUSED") (Some "connect ECONNREFUSED 10.0.0.1:443") in
  let connectTimeout := mkJsError (Some "ETIMEDOUT") (Some "connect ETIMEDOUT 10.0.0.1:443") in
  let notFound := mkJsError (Some "ENOTFOUND") (Some "getaddrinfo ENOTFOUND timeout.example") in
  status (answer axiosTimeout) = 504%Z ∧
  status (answer refused) = 502%Z ∧
  status (answer connectTimeout) = 502%Z ∧
  payload (answer connectTimeout) = ErrorJson "bad gateway" (message connectTimeout) ∧
  status (answer notFound) = 504%Z ∧
  payload (answer notFound) = ErrorJson "gateway timeout" (message notFound).
Proof.
  intros account req answer axiosTimeout refused connectTimeout notFound.
  assert (∀ e, answer e = onError e) as Hanswer.
  { intros e. by apply (handler_rejected _ _ _ _ _ account). }
  by rewrite !Hanswer.
Qed.

End DispatcherProperties.

(** ** Account manager *)

Section ManagerProperties.

Import Manager.

Variable login : string → string → LoginOutcome.
Variable refreshSessionId : Account → RefreshOutcome.
Variable isSessionIdExpiringSoon : option Z → Z → bool.
Variable saveAccount : string → SaveData → SaveOutcome.

Lemma findIndex_Some {A} (p : A → bool) (l : list A) (i : nat) :
  Js.findIndex p l = Some i → ∃ y, l !! i = Some y ∧ p y = true.
Proof.
  revert i. induction l as [|x l IH]; intros i Hi; simpl in *; [done|].
  destruct (p x) eqn:Hx.
  - injection Hi as <-. eauto.
  - destruct (Js.findIndex p l) as [j|]; [|done].
    injection Hi as <-. by apply IH.
Qed.

Lemma find_elem_of {A} (p : A → bool) (l : list A) (x : A) :
  x ∈ l → p x = true → is_Some (Js.find p l).
Proof.
  induction 1 as [x l|x y l _ IH]; intros Hp; simpl.
  - rewrite Hp. eauto.
  - destruct (p y); eauto.
Qed.

Lemma find_None {A} (p : A → bool) (l : list A) :
  Js.find p l = None → ∀ x, x ∈ l → p x = false.
Proof.
  intros Hfind x Hx. destruct (p x) eqn:Hp; [|done].
  destruct (find_elem_of p l x Hx Hp) as [y Hy]. congruence.
Qed.

Lemma filter_all {A} (p : A → bool) (l : list A) :
  (∀ x, x ∈ l → p x = true) → List.filter p l = l.
Proof.
  induction l as [|x l IH]; intros Hall; simpl; [done|].
  rewrite Hall by left. f_equal. apply IH. intros y Hy. apply Hall. by right.
Qed.

Lemma filter_length_split {A} (p q : A → bool) (l : list A) :
  (∀ x, x ∈ l → q x = negb (p x)) →
  length (List.filter q l) = length l - length (List.filter p l).
Proof.
  induction l as [|x l IH]; intros Hpq; simpl; [done|].
  pose proof (List.filter_length_le p l) as Hle.
  specialize (IH (λ y Hy, Hpq y (list_elem_of_further _ _ _ Hy))).
  rewrite (Hpq x) by left.
  destruct (p x); simpl; lia.
Qed.

(** The loop body, spelled out. *)
Lemma refreshOne_eq (account : Account) (successCount failedCount : nat) (s : State) :
  refreshOne refreshSessionId saveAccount account (successCount, failedCount) s =
    match refreshSessionId account with
    | Refreshed updatedAccount =>
        (if iterationSucceeded refreshSessionId saveAccount account
         then (S successCount, failedCount) else (successCount, S failedCount),
         {| dreaminaAccounts :=
              match Js.findIndex (sameEmail (email account)) (dreaminaAccounts s) with
              | Some index => <[index := updatedAccount]> (dreaminaAccounts s)
              | None => dreaminaAccounts s
              end;
            isInitialized := isInitialized s;
            calls := calls s ++ [RefreshCall account;
                                 SaveCall (email account) (refreshedData updatedAccount);
                                 Delay 2000] |})
    | RefreshNull | RefreshThrew =>
        ((successCount, S failedCount),
         {| dreaminaAccounts := dreaminaAccounts s;
            isInitialized := isInitialized s;
            calls := calls s ++ [RefreshCall account; Delay 2000] |})
    end.
Proof.
  unfold refreshOne, iterationSucceeded, mbind, M_bind, mret, M_ret,
    emit, getAllAccounts, setAllAccounts.
  destruct (refreshSessionId account) as [updatedAccount| |]; simpl.
  - destruct (Js.findIndex _ _), (saveAccount _ _); simpl;
      by rewrite <-!(assoc_L (++)).
  - by rewrite <-!(assoc_L (++)).
  - by rewrite <-!(assoc_L (++)).
Qed.

Lemma refreshOne_counts (account : Account) (successCount failedCount : nat) (s : State) :
  (refreshOne refreshSessionId saveAccount account (successCount, failedCount) s).1 =
    if iterationSucceeded refreshSessionId saveAccount account
    then (S successCount, failedCount) else (successCount, S failedCount).
Proof.
  rewrite refreshOne_eq. unfold iterationSucceeded.
  by destruct (refreshSessionId account).
Qed.

Lemma refreshOne_accounts (account : Account) (counts : nat * nat) (s : State) :
  dreaminaAccounts (refreshOne refreshSessionId saveAccount account counts s).2 =
    match refreshSessionId account with
    | Refreshed updatedAccount =>
        match Js.findIndex (sameEmail (email account)) (dreaminaAccounts s) with
        | Some index => <[index := updatedAccount]> (dreaminaAccounts s)
        | None => dreaminaAccounts s
        end
    | RefreshNull | RefreshThrew => dreaminaAccounts s
    end.
Proof.
  destruct counts. rewrite refreshOne_eq. by destruct (refreshSessionId account).
Qed.

Lemma refreshOne_log (account : Account) (counts : nat * nat) (s : State) :
  isInitialized (refreshOne refreshSessionId saveAccount account counts s).2 = isInitialized s ∧
  refreshCalls (calls (refreshOne refreshSessionId saveAccount account counts s).2) =
    refreshCalls (calls s) ++ [account].
Proof.
  destruct counts. rewrite refreshOne_eq. unfold refreshCalls.
  destruct (refreshSessionId account); simpl; by rewrite omap_app.
Qed.

Lemma refreshLoop_cons (account : Account) (rest : list Account) (counts : nat * nat) (s : State) :
  refreshLoop refreshSessionId saveAccount (account :: rest) counts s =
    refreshLoop refreshSessionId saveAccount rest
      (refreshOne refreshSessionId saveAccount account counts s).1
      (refreshOne refreshSessionId saveAccount account counts s).2.
Proof.
  simpl. unfold mbind, M_bind.
  by destruct (refreshOne refreshSessionId saveAccount account counts s).
Qed.

(** The loop goes through every candidate: it counts the iterations that
    succeed and calls [refreshSessionId] once per candidate, in order. *)
Lemma refreshLoop_counts (needsRefresh : list Account) (counts : nat * nat) (s : State) :
  let r := refreshLoop refreshSessionId saveAccount needsRefresh counts s in
  r.1.1 = counts.1 +
          length (List.filter (iterationSucceeded refreshSessionId saveAccount) needsRefresh) ∧
  r.1.2 = counts.2 + (length needsRefresh -
          length (List.filter (iterationSucceeded refreshSessionId saveAccount) needsRefresh)) ∧
  isInitialized r.2 = isInitialized s ∧
  refreshCalls (calls r.2) = refreshCalls (calls s) ++ needsRefresh.
Proof.
  revert counts s. induction needsRefresh as [|account rest IH]; intros [sc fc] s.
  - simpl. rewrite app_nil_r. split_and!; try done; lia.
  - rewrite refreshLoop_cons.
    specialize (IH (refreshOne refreshSessionId saveAccount account (sc, fc) s).1
                   (refreshOne refreshSessionId saveAccount account (sc, fc) s).2).
    destruct IH as (IH1 & IH2 & IH3 & IH4).
    destruct (refreshOne_log account (sc, fc) s) as [Hinit Hlog].
    cbv zeta. rewrite IH1, IH2, IH3, IH4, Hinit, Hlog, refreshOne_counts.
    pose proof (List.filter_length_le
                  (iterationSucceeded refreshSessionId saveAccount) rest) as Hle.
    rewrite <-(assoc_L (++)). simpl.
    destruct (iterationSucceeded refreshSessionId saveAccount account); simpl;
      split_and!; try done; lia.
Qed.


(** A write of the loop never lands on the slot of an account whose refresh
    fails: the slot is found by e-mail, and e-mails are unique. *)
Lemma refreshOne_keeps_failed (store0 : list Account) (account : Account)
    (counts : nat * nat) (s : State) :
  NoDup (email <$> store0) →
  account ∈ store0 →
  (∀ i a, store0 !! i = Some a → refreshFailed refreshSessionId a = true →
     dreaminaAccounts s !! i = Some a) →
  ∀ i a, store0 !! i = Some a → refreshFailed refreshSessionId a = true →
    dreaminaAccounts (refreshOne refreshSessionId saveAccount account counts s).2 !! i = Some a.
Proof.
  intros Hnodup Hin Hinv i a Hi Ha. rewrite refreshOne_accounts.
  destruct (refreshSessionId account) as [updatedAccount| |] eqn:Hacc; [|by eauto..].
  destruct (Js.findIndex _ _) as [index|] eqn:Hfind; [|by eauto].
  destruct (decide (index = i)) as [->|Hne]; [exfalso|].
  - apply findIndex_Some in Hfind as (y & Hy & Hmail).
    rewrite (Hinv i a Hi Ha) in Hy. injection Hy as <-.
    apply bool_decide_eq_true_1 in Hmail.
    apply list_elem_of_lookup in Hin as [j Hj].
    assert (i = j) as <-.
    { apply (NoDup_lookup (email <$> store0) i j (email a)); [done|..].
      - by rewrite list_lookup_fmap, Hi.
      - by rewrite list_lookup_fmap, Hj, Hmail. }
    assert (a = account) as -> by congruence.
    unfold refreshFailed in Ha. by rewrite Hacc in Ha.
  - rewrite list_lookup_insert_ne by done. eauto.
Qed.

Lemma refreshLoop_keeps_failed (store0 needsRefresh : list Account)
    (counts : nat * nat) (s : State) :
  NoDup (email <$> store0) →
  (∀ account, account ∈ needsRefresh → account ∈ store0) →
  (∀ i a, store0 !! i = Some a → refreshFailed refreshSessionId a = true →
     dreaminaAccounts s !! i = Some a) →
  ∀ i a, store0 !! i = Some a → refreshFailed refreshSessionId a = true →
    dreaminaAccounts (refreshLoop refreshSessionId saveAccount needsRefresh counts s).2 !! i
      = Some a.
Proof.
  intros Hnodup. revert counts s.
  induction needsRefresh as [|account rest IH]; intros counts s Hsub Hinv; [done|].
  rewrite refreshLoop_cons. apply IH.
  - intros x Hx. apply Hsub. by right.
  - apply refreshOne_keeps_failed; [done| |done]. apply Hsub. by left.
Qed.

(** The scan of an initialized manager whose accounts are all candidates. *)
Lemma autoRefreshSessionIds_all (thresholdHours : Z) (s : State) :
  isInitialized s = true →
  (∀ a, a ∈ dreaminaAccounts s →
     isSessionIdExpiringSoon (sessionid_expires a) thresholdHours = true) →
  autoRefreshSessionIds refreshSessionId isSessionIdExpiringSoon saveAccount thresholdHours s =
    if decide (length (dreaminaAccounts s) = 0) then (0, s)
    else
      ((refreshLoop refreshSessionId saveAccount (dreaminaAccounts s) (0, 0) s).1.1,
       (refreshLoop refreshSessionId saveAccount (dreaminaAccounts s) (0, 0) s).2).
Proof.
  intros Hinit Hall.
  unfold autoRefreshSessionIds, mbind, M_bind, mret, M_ret, getInitialized, getAllAccounts.
  rewrite Hinit. simpl. rewrite filter_all by done.
  case_decide; [done|].
  by destruct (refreshLoop _ _ _ _ _).
Qed.

(** The scan in general: the count is the number of candidates whose
    iteration reaches [successCount++]. *)
Lemma autoRefreshSessionIds_count (thresholdHours : Z) (s : State) :
  isInitialized s = true →
  (autoRefreshSessionIds refreshSessionId isSessionIdExpiringSoon saveAccount thresholdHours s).1 =
    length (List.filter (iterationSucceeded refreshSessionId saveAccount)
              (List.filter
                 (λ account, isSessionIdExpiringSoon (sessionid_expires account) thresholdHours)
                 (dreaminaAccounts s))).
Proof.
  intros Hinit.
  unfold autoRefreshSessionIds, mbind, M_bind, mret, M_ret, getInitialized, getAllAccounts.
  rewrite Hinit. simpl.
  set (needsRefresh := List.filter _ (dreaminaAccounts s)).
  case_decide as Hlen.
  - apply nil_length_inv in Hlen. by rewrite Hlen.
  - pose proof (refreshLoop_counts needsRefresh (0, 0) s) as (Hc & _).
    by destruct (refreshLoop _ _ _ _ _).
Qed.

Lemma iterations_partition (accounts : list Account) :
  length (List.filter (iterationSucceeded refreshSessionId saveAccount) accounts)
  + length (List.filter (refreshFailed refreshSessionId) accounts)
  + length (List.filter (saveFailed refreshSessionId saveAccount) accounts)
  = length accounts.
Proof.
  induction accounts as [|x l IH]; simpl; [done|].
  unfold iterationSucceeded at 1, refreshFailed at 1, saveFailed at 1.
  destruct (refreshSessionId x); [destruct (saveAccount _ _)|..]; simpl; lia.
Qed.

Lemma saveFailed_never (accounts : list Account) :
  (∀ e d, saveAccount e d = Saved) →
  List.filter (saveFailed refreshSessionId saveAccount) accounts = [].
Proof.
  intros Hsave. induction accounts as [|x l IH]; simpl; [done|].
  unfold saveFailed at 1. destruct (refreshSessionId x); [by rewrite Hsave|done..].
Qed.

(** C1, as the code has it.  On an initialized manager whose [N] accounts
    have pairwise distinct e-mails and are all candidates for the threshold,
    let [K] be the number of accounts whose refresh fails
    ([refreshSessionId] returns [null] or throws) and [P] the number of
    accounts whose refresh gives a record that [saveAccount] then throws
    on.  The scan returns [N - K - P], hence [N - K] when the persistence
    accepts every save; every account whose refresh fails is still in its
    slot of the store, unchanged (token and expiry included); and
    [refreshSessionId] has been called for every account, in store order,
    so no failure ends the scan early. *)
Theorem autoRefreshSessionIds_isolates_failures (thresholdHours : Z) (s : State) :
  isInitialized s = true →
  NoDup (email <$> dreaminaAccounts s) →
  (∀ a, a ∈ dreaminaAccounts s →
     isSessionIdExpiringSoon (sessionid_expires a) thresholdHours = true) →
  let N := length (dreaminaAccounts s) in
  let K := length (List.filter (refreshFailed refreshSessionId) (dreaminaAccounts s)) in
  let P := length (List.filter (saveFailed refreshSessionId saveAccount) (dreaminaAccounts s)) in
  let r := autoRefreshSessionIds refreshSessionId isSessionIdExpiringSoon saveAccount
             thresholdHours s in
  r.1 = N - K - P ∧
  ((∀ e d, saveAccount e d = Saved) → r.1 = N - K) ∧
  (∀ i a, dreaminaAccounts s !! i = Some a → refreshFailed refreshSessionId a = true →
     dreaminaAccounts r.2 !! i = Some a) ∧
  refreshCalls (calls r.2) = refreshCalls (calls s) ++ dreaminaAccounts s.
Proof.
  intros Hinit Hnodup Hall N K P r.
  assert (r.1 = N - K - P) as Hcount.
  { subst N K P r. rewrite autoRefreshSessionIds_count by done.
    rewrite (filter_all (λ account,
               isSessionIdExpiringSoon (sessionid_expires account) thresholdHours)) by done.
    pose proof (iterations_partition (dreaminaAccounts s)). lia. }
  split_and!.
  - done.
  - intros Hsave. rewrite Hcount. subst P. rewrite saveFailed_never by done. simpl. lia.
  - subst r. rewrite autoRefreshSessionIds_all by done.
    case_decide; [done|]. simpl.
    by apply (refreshLoop_keeps_failed (dreaminaAccounts s)).
  - subst r. rewrite autoRefreshSessionIds_all by done.
    case_decide as Hlen.
    + apply nil_length_inv in Hlen. simpl. by rewrite Hlen, app_nil_r.
    + simpl. by pose proof (refreshLoop_counts (dreaminaAccounts s) (0, 0) s) as (_ & _ & _ & Hlog).
Qed.

Lemma find_sameEmail (e : string) (accounts : list Account) :
  (∃ acc, acc ∈ accounts ∧ email acc = e) → is_Some (Js.find (sameEmail e) accounts).
Proof.
  intros (acc & Hin & Hmail). apply (find_elem_of _ _ acc Hin).
  by apply bool_decide_eq_true_2.
Qed.

(** [addAccount] keeps the e-mails of the store pairwise distinct. *)
Lemma addAccount_NoDup (e p : string) (s : State) :
  NoDup (email <$> dreaminaAccounts s) →
  NoDup (email <$> dreaminaAccounts (addAccount login saveAccount e p s).2).
Proof.
  intros Hnodup. unfold addAccount, mbind, M_bind, mret, M_ret,
    getAllAccounts, setAllAccounts, emit.
  destruct (Js.find _ _) eqn:Hfind; [done|].
  destruct (login e p); simpl; [|done..].
  assert (NoDup (email <$> dreaminaAccounts s ++
                   [mkAccount e p None None (lr_sessionid result) (lr_expires result)])).
  { rewrite fmap_app. apply NoDup_app. split_and!; [done| |apply NoDup_singleton].
    intros e' Hin Hnew. apply list_elem_of_singleton in Hnew. simpl in Hnew. subst e'.
    apply list_elem_of_fmap in Hin as (acc & Hmail & Hacc).
    pose proof (find_None _ _ Hfind acc Hacc) as Hne.
    apply bool_decide_eq_false_1 in Hne. congruence. }
  by destruct (saveAccount _ _).
Qed.

(** C6.  [addAccount] with an e-mail that an account of the store already
    has returns [false] and leaves the whole state as it was: the list of
    accounts (so the existing record, and no appended record) and the log of
    outgoing calls (so neither [login] nor [saveAccount] is called). *)
Theorem addAccount_existing_rejected (e p : string) (s : State) :
  (∃ acc, acc ∈ dreaminaAccounts s ∧ email acc = e) →
  addAccount login saveAccount e p s = (false, s).
Proof.
  intros Hex. apply find_sameEmail in Hex as [existingAccount Hfind].
  unfold addAccount, mbind, M_bind, getAllAccounts. by rewrite Hfind.
Qed.

(** The two routes return the count of the scan they call. *)
Lemma refreshAllAccounts_delegates (bodyThresholdHours : option Z) (s : State) :
  let r := autoRefreshSessionIds refreshSessionId isSessionIdExpiringSoon saveAccount
             (default 24%Z bodyThresholdHours) s in
  Routes.refreshAllAccounts refreshSessionId isSessionIdExpiringSoon saveAccount
      bodyThresholdHours s
    = (Routes.mkRefreshAllResponse r.1 (default 24%Z bodyThresholdHours), r.2).
Proof.
  unfold Routes.refreshAllAccounts, mbind, M_bind, mret, M_ret.
  by destruct (autoRefreshSessionIds _ _ _ _ _).
Qed.

Lemma forceRefreshAllAccounts_delegates (s : State) :
  let r := autoRefreshSessionIds refreshSessionId isSessionIdExpiringSoon saveAccount
             8760%Z s in
  Routes.forceRefreshAllAccounts refreshSessionId isSessionIdExpiringSoon saveAccount s
    = (Routes.mkForceRefreshAllResponse r.1 (length (dreaminaAccounts r.2)), r.2).
Proof.
  unfold Routes.forceRefreshAllAccounts, mbind, M_bind, mret, M_ret, getAllAccounts.
  by destruct (autoRefreshSessionIds _ _ _ _ _).
Qed.

(** C10.  On a manager whose initialization has not completed, the scan
    returns 0 and leaves the state as it was (accounts and log of outgoing
    calls: no refresh, no save), and so do the timer's tick and the two
    routes that call the scan. *)
Theorem autoRefreshSessionIds_uninitialized
    (thresholdHours : Z) (bodyThresholdHours : option Z) (s : State) :
  isInitialized s = false →
  autoRefreshSessionIds refreshSessionId isSessionIdExpiringSoon saveAccount thresholdHours s
    = (0, s) ∧
  scheduledTick refreshSessionId isSessionIdExpiringSoon saveAccount s = (0, s) ∧
  Routes.refreshAllAccounts refreshSessionId isSessionIdExpiringSoon saveAccount
      bodyThresholdHours s
    = (Routes.mkRefreshAllResponse 0 (default 24%Z bodyThresholdHours), s) ∧
  Routes.forceRefreshAllAccounts refreshSessionId isSessionIdExpiringSoon saveAccount s
    = (Routes.mkForceRefreshAllResponse 0 (length (dreaminaAccounts s)), s).
Proof.
  intros Hinit.
  assert (∀ th, autoRefreshSessionIds refreshSessionId isSessionIdExpiringSoon saveAccount th s
                = (0, s)) as Hscan.
  { intros th. unfold autoRefreshSessionIds, mbind, M_bind, getInitialized.
    by rewrite Hinit. }
  split_and!.
  - apply Hscan.
  - apply Hscan.
  - unfold Routes.refreshAllAccounts, mbind, M_bind. by rewrite Hscan.
  - unfold Routes.forceRefreshAllAccounts, mbind, M_bind. by rewrite Hscan.
Qed.

End ManagerProperties.

(** ** Bulk creation *)

Section BatchProperties.

Import Manager Routes.

Variable login : string → string → LoginOutcome.
Variable saveAccount : string → SaveData → SaveOutcome.



Lemma batchLoop_cons (line : string) (rest : list string)
    (acc : nat * list (string * string)) (s : State) :
  batchLoop login saveAccount (line :: rest) acc s =
    batchLoop login saveAccount rest
      (batchOne login saveAccount line acc s).1 (batchOne login saveAccount line acc s).2.
Proof.
  simpl. unfold mbind, M_bind. by destruct (batchOne login saveAccount line acc s).
Qed.

(** The loop never stops early: the lines after any prefix are processed
    from wherever the prefix left the counters and the store. *)
Lemma batchLoop_app (lines1 lines2 : list string)
    (acc : nat * list (string * string)) (s : State) :
  batchLoop login saveAccount (lines1 ++ lines2) acc s =
    batchLoop login saveAccount lines2
      (batchLoop login saveAccount lines1 acc s).1
      (batchLoop login saveAccount lines1 acc s).2.
Proof.
  revert acc s. induction lines1 as [|line rest IH]; intros acc s; [done|].
  change ((line :: rest) ++ lines2) with (line :: (rest ++ lines2)).
  by rewrite !batchLoop_cons, IH.
Qed.



End BatchProperties.

(** ** Instances *)



Lemma addAccount_existing_rejected_witness :
  let login := λ (_ _ : string),
    Manager.LoggedIn (Manager.mkLoginResult (Some "sid") (Some 900%Z)) in
  let save := λ (_ : string) (_ : Manager.SaveData), Manager.Saved in
  let a := mkAccount "a@x" "pa" None None (Some "ta") (Some 100%Z) in
  let b := mkAccount "b@x" "pb" None None None None in
  let s := Manager.mkState [a; b] true [] in
  Manager.addAccount login save "b@x" "other" s = (false, s).
Proof.
  intros login save a b s.
  apply (addAccount_existing_rejected login save "b@x" "other" s).
  exists b. split; [|reflexivity]. apply list_elem_of_In. simpl. auto.
Defined.

Lemma autoRefreshSessionIds_uninitialized_witness :
  let refresh := λ acc : Account,
    Manager.Refreshed (mkAccount (email acc) (password acc) None None (Some "new") (Some 900%Z)) in
  let soon := λ (_ : option Z) (_ : Z), true in
  let save := λ (_ : string) (_ : Manager.SaveData), Manager.Saved in
  let s := Manager.mkState [mkAccount "a@x" "pa" None None (Some "ta") None] false [] in
  Manager.autoRefreshSessionIds refresh soon save 24%Z s = (0, s) ∧
  Manager.scheduledTick refresh soon save s = (0, s) ∧
  Routes.refreshAllAccounts refresh soon save None s
    = (Routes.mkRefreshAllResponse 0 (default 24%Z None), s) ∧
  Routes.forceRefreshAllAccounts refresh soon save s
    = (Routes.mkForceRefreshAllResponse 0 (length (Manager.dreaminaAccounts s)), s).
Proof.
  intros refresh soon save s.
  apply (autoRefreshSessionIds_uninitialized refresh soon save 24%Z None s). reflexivity.
Defined.

Lemma autoRefreshSessionIds_isolates_failures_witness :
  let a := mkAccount "a@x" "pa" None None (Some "ta") (Some 100%Z) in
  let b := mkAccount "b@x" "pb" None None (Some "tb") (Some 200%Z) in
  let c := mkAccount "c@x" "pc" None None (Some "tc") None in
  let d := mkAccount "d@x" "pd" None None None None in
  let refresh := λ acc : Account,
    if bool_decide (email acc = "b@x") then Manager.RefreshNull
    else if bool_decide (email acc = "c@x") then Manager.RefreshThrew
    else Manager.Refreshed
           (mkAccount (email acc) (password acc) None None (Some "new") (Some 900%Z)) in
  let soon := λ (_ : option Z) (_ : Z), true in
  let save := λ (e : string) (_ : Manager.SaveData),
    if bool_decide (e = "d@x") then Manager.SaveThrew else Manager.Saved in
  let s := Manager.mkState [a; b; c; d] true [] in
  let r := Manager.autoRefreshSessionIds refresh soon save 8760%Z s in
  r.1 = 4 - 2 - 1 ∧
  (∀ i acc, [a; b; c; d] !! i = Some acc → Manager.refreshFailed refresh acc = true →
     Manager.dreaminaAccounts r.2 !! i = Some acc) ∧
  Manager.refreshCalls (Manager.calls r.2) = [] ++ [a; b; c; d].
Proof.
  intros a b c d refresh soon save s.
  assert (NoDup (email <$> Manager.dreaminaAccounts s)) as Hnodup.
  { apply (bool_decide_unpack _). vm_compute. exact I. }
  destruct (autoRefreshSessionIds_isolates_failures refresh soon save 8760%Z s
              eq_refl Hnodup (λ _ _, eq_refl)) as (Hcount & _ & Hkept & Hcalls).
  split_and!; [exact Hcount|exact Hkept|exact Hcalls].
Defined.

(** C1, as the specification words it, fails.  Two accounts, both
    candidates, both refreshed ([K = 0]); the save of the second throws.
    The scan returns 1, not [N - K = 2]; and the second account, whose
    iteration ended in the [catch] and was counted as failed, holds the new
    token and expiry in the store: the store takes the refreshed record
    before the save is tried. *)
Lemma autoRefreshSessionIds_save_throw_counted_failed :
  let a := mkAccount "a@x" "pa" None None (Some "ta") (Some 100%Z) in
  let b := mkAccount "b@x" "pb" None None (Some "tb") (Some 200%Z) in
  let refresh := λ acc : Account,
    Manager.Refreshed
      (mkAccount (email acc) (password acc) None None (Some "new") (Some 900%Z)) in
  let soon := λ (_ : option Z) (_ : Z), true in
  let save := λ (e : string) (_ : Manager.SaveData),
    if bool_decide (e = "b@x") then Manager.SaveThrew else Manager.Saved in
  let s := Manager.mkState [a; b] true [] in
  let r := Manager.autoRefreshSessionIds refresh soon save 8760%Z s in
  length (Manager.dreaminaAccounts s) = 2 ∧
  length (List.filter (Manager.refreshFailed refresh) (Manager.dreaminaAccounts s)) = 0 ∧
  r.1 = 1 ∧
  Manager.dreaminaAccounts r.2 =
    [mkAccount "a@x" "pa" None None (Some "new") (Some 900%Z);
     mkAccount "b@x" "pb" None None (Some "new") (Some 900%Z)].
Proof. by vm_compute. Qed.

(** * Further properties of the dispatcher *)

Section DispatcherMore.

Import Dispatcher.

Lemma relayedHeaders_elem (respHeaders : list (string * string)) (k v : string) :
  (k, v) ∈ relayedHeaders respHeaders ↔
  (k, v) ∈ respHeaders ∧ Js.toLowerCase k ∉ hopByHop.
Proof.
  unfold relayedHeaders, hopByHop.
  rewrite (list_elem_of_In (List.filter _ _)), filter_In, <-list_elem_of_In. simpl.
  by rewrite negb_true_iff, bool_decide_eq_false.
Qed.

Lemma relayedHeaders_sublist (respHeaders : list (string * string)) :
  relayedHeaders respHeaders `sublist_of` respHeaders.
Proof.
  unfold relayedHeaders. induction respHeaders as [|kv l IH]; simpl; [done|].
  destruct (negb _); by constructor.
Qed.

Lemma setCorsHeaders_not_hopByHop (k v : string) :
  (k, v) ∈ setCorsHeaders → Js.toLowerCase k ∉ hopByHop.
Proof.
  unfold setCorsHeaders. intros Hin.
  repeat (apply elem_of_cons in Hin as [[= -> ->]|Hin];
          [apply (bool_decide_unpack _); by vm_compute|]).
  by apply elem_of_nil in Hin.
Qed.

Lemma reserved_false (req : Request) :
  reserved req = false ↔
  Js.startsWith (path req) "/dreamina" = false ∧ Js.startsWith (path req) "/events" = false.
Proof. unfold reserved. apply orb_false_iff. Qed.

(** X1.  For a resolved upstream call, the [setHeader] calls on the response
    are: none for [connection], [keep-alive], [transfer-encoding] and
    [upgrade] under any capitalization of the name, one for every other
    upstream header, in the upstream's order, and after them those of
    [setCorsHeaders], which so override an upstream header of the same
    name. *)
Theorem handler_relays_response_headers
    (axios : AxiosConfig → AxiosOutcome) (proxyTimeoutMs : Z) (base : option string)
    (all : list Account) (rrIndex : nat) (req : Request) (account : Account)
    (resp : UpstreamResponse) :
  Js.truthy base = true →
  reserved req = false →
  (Selector.pickAccount all rrIndex).1 = Some account →
  axios (axiosConfig proxyTimeoutMs (default "" base)
           (normalizeSessionId (default "" (sessionid account))) req) = Resolved resp →
  let res := (handler axios proxyTimeoutMs base all rrIndex req).1 in
  (∀ k v, (k, v) ∈ setHeader res → Js.toLowerCase k ∉ hopByHop) ∧
  (∀ k v, (k, v) ∈ up_headers resp → Js.toLowerCase k ∉ hopByHop → (k, v) ∈ setHeader res) ∧
  (∃ relayed, setHeader res = relayed ++ setCorsHeaders ∧
              relayed `sublist_of` up_headers resp).
Proof.
  intros Hbase Hres Hpick Haxios res.
  apply reserved_false in Hres as [Hd He].
  assert (res = onResponse resp) as ->.
  { subst res. rewrite (handler_reaches_axios _ _ _ _ _ _ account) by done.
    by rewrite Haxios. }
  simpl. split_and!.
  - intros k v Hin. apply elem_of_app in Hin as [Hin|Hin].
    + by apply relayedHeaders_elem in Hin as [_ ?].
    + by eapply setCorsHeaders_not_hopByHop.
  - intros k v Hin Hhop. apply elem_of_app. left. by apply relayedHeaders_elem.
  - eexists. split; [done|]. apply relayedHeaders_sublist.
Qed.

(** Where the handler answers without an upstream call. *)
Lemma handler_refusal
    (axios : AxiosConfig → AxiosOutcome) (proxyTimeoutMs : Z) (base : option string)
    (all : list Account) (rrIndex : nat) (req : Request) :
  Js.truthy base = false ∨ reserved req = true ∨ Selector.available all = [] →
  handler axios proxyTimeoutMs base all rrIndex req =
    (if negb (Js.truthy base)
     then {| status := 503; setHeader := setCorsHeaders;
             payload := ErrorJson "proxy target not configured" None |}
     else if reserved req
     then {| status := 404; setHeader := []; payload := ErrorJson "not found" None |}
     else {| status := 503; setHeader := [];
             payload := ErrorJson "no available account" None |},
     rrIndex).
Proof.
  intros Hcase. unfold handler. fold (reserved req).
  destruct (Js.truthy base); simpl; [|done].
  destruct (reserved req); simpl; [done|].
  destruct Hcase as [?|[?|Hnil]]; [done..|].
  by rewrite pickAccount_empty.
Qed.

(** X2.  Without a configured base, on a reserved path, or with no token-bearing
    account in the store, the handler answers 503, 404 and 503 itself: the
    answer is the same for every behaviour of the upstream (which is not
    called), and the request does not use up a turn of the round robin. *)
Theorem handler_refuses_without_upstream
    (axios axios' : AxiosConfig → AxiosOutcome) (proxyTimeoutMs : Z) (base : option string)
    (all : list Account) (rrIndex : nat) (req : Request) :
  Js.truthy base = false ∨ reserved req = true ∨ Selector.available all = [] →
  let r := handler axios proxyTimeoutMs base all rrIndex req in
  r = handler axios' proxyTimeoutMs base all rrIndex req ∧
  r.2 = rrIndex ∧
  (status r.1 = 503%Z ∨ status r.1 = 404%Z) ∧
  (status r.1 = 404%Z ↔ Js.truthy base = true ∧ reserved req = true) ∧
  (∃ error, payload r.1 = ErrorJson error None).
Proof.
  intros Hcase r. subst r.
  rewrite !(handler_refusal _ _ _ _ _ _ Hcase).
  destruct (Js.truthy base), (reserved req); simpl;
    split_and!; eauto; split; (by intros [??]) || done.
Qed.

Lemma handler_counter
    (axios : AxiosConfig → AxiosOutcome) (proxyTimeoutMs : Z) (base : option string)
    (all : list Account) (rrIndex : nat) (req : Request) :
  Js.truthy base = true →
  (handler axios proxyTimeoutMs base all rrIndex req).2 =
    if reserved req then rrIndex else (Selector.pickAccount all rrIndex).2.
Proof.
  intros Hbase. unfold handler. fold (reserved req). rewrite Hbase. simpl.
  destruct (reserved req); [done|].
  destruct (Selector.pickAccount all rrIndex) as [[account|] rr']; [|done].
  destruct (negb _); [done|]. by destruct (axios _).
Qed.

Lemma handleAll_cons
    (axios : AxiosConfig → AxiosOutcome) (proxyTimeoutMs : Z) (base : option string)
    (all : list Account) (rrIndex : nat) (req : Request) (rest : list Request) :
  (handleAll axios proxyTimeoutMs base all rrIndex (req :: rest)).2 =
    (handleAll axios proxyTimeoutMs base all
       (handler axios proxyTimeoutMs base all rrIndex req).2 rest).2.
Proof.
  simpl. destruct (handler _ _ _ _ _ _) as [res rr1]. simpl.
  by destruct (handleAll _ _ _ _ _ _).
Qed.

(** X3.  On a store with [N >= 1] token-bearing accounts and with a configured
    base, a sequence of requests moves the counter by one turn for every
    request that is not on a reserved path, whatever the upstream answers
    (a failed upstream call uses up its turn) and by nothing for a request
    on a reserved path. *)
Theorem handleAll_turns
    (axios : AxiosConfig → AxiosOutcome) (proxyTimeoutMs : Z) (base : option string)
    (all : list Account) (rrIndex : nat) (reqs : list Request) :
  Js.truthy base = true →
  1 ≤ length (Selector.available all) →
  (handleAll axios proxyTimeoutMs base all rrIndex reqs).2
    `mod` length (Selector.available all) =
  (rrIndex + length (List.filter (λ req, negb (reserved req)) reqs))
    `mod` length (Selector.available all).
Proof.
  intros Hbase HN. revert rrIndex.
  induction reqs as [|req rest IH]; intros rrIndex.
  - simpl. by rewrite Nat.add_0_r.
  - rewrite handleAll_cons, IH, handler_counter by done. simpl.
    destruct (reserved req); simpl; [done|].
    rewrite pickAccount_nonempty by (intros Hnil; rewrite Hnil in HN; simpl in HN; lia).
    simpl. rewrite Nat.Div0.add_mod_idemp_l. f_equal. lia.
Qed.

Lemma maskHeader_lookup (k mask j : string) (h : gmap string string) :
  maskHeader k mask h !! j =
    if bool_decide (j = k) && Js.truthy (h !! k) then Some mask else h !! j.
Proof.
  unfold maskHeader. destruct (Js.truthy (h !! k)) eqn:Ht.
  - case_bool_decide as Hj; simpl.
    + subst j. apply lookup_insert_eq.
    + by rewrite lookup_insert_ne.
  - by rewrite andb_false_r.
Qed.

Lemma maskHeader_lookup_eq (k mask : string) (h : gmap string string) :
  maskHeader k mask h !! k = if Js.truthy (h !! k) then Some mask else h !! k.
Proof. rewrite maskHeader_lookup. by rewrite bool_decide_eq_true_2. Qed.

Lemma maskHeader_lookup_ne (k mask j : string) (h : gmap string string) :
  j ≠ k → maskHeader k mask h !! j = h !! j.
Proof. intros Hne. rewrite maskHeader_lookup. by rewrite bool_decide_eq_false_2. Qed.

Lemma safeHeaders_lookup_authorization (h : gmap string string) (j : string) :
  j ∈ ["authorization"; "Authorization"] →
  safeHeaders h !! j = if Js.truthy (h !! j) then Some "Bearer ****" else h !! j.
Proof.
  intros Hj. unfold safeHeaders.
  apply elem_of_cons in Hj as [->|Hj]; [|apply list_elem_of_singleton in Hj as ->].
  - rewrite !(maskHeader_lookup_ne _ _ "authorization") by done.
    apply maskHeader_lookup_eq.
  - rewrite !(maskHeader_lookup_ne _ _ "Authorization") by done.
    rewrite maskHeader_lookup_eq.
    by rewrite !(maskHeader_lookup_ne _ _ "Authorization") by done.
Qed.

Lemma safeHeaders_lookup_cookie (h : gmap string string) (j : string) :
  j ∈ ["cookie"; "Cookie"] →
  safeHeaders h !! j = if Js.truthy (h !! j) then Some "****" else h !! j.
Proof.
  intros Hj. unfold safeHeaders.
  apply elem_of_cons in Hj as [->|Hj]; [|apply list_elem_of_singleton in Hj as ->].
  - rewrite !(maskHeader_lookup_ne _ _ "cookie") by done.
    rewrite maskHeader_lookup_eq.
    by rewrite !(maskHeader_lookup_ne _ _ "cookie") by done.
  - rewrite maskHeader_lookup_eq.
    by rewrite !(maskHeader_lookup_ne _ _ "Cookie") by done.
Qed.

Lemma safeHeaders_lookup_other (h : gmap string string) (j : string) :
  j ∉ ["authorization"; "Authorization"; "cookie"; "Cookie"] →
  safeHeaders h !! j = h !! j.
Proof.
  intros Hj. unfold safeHeaders.
  rewrite !maskHeader_lookup_ne; [done|set_unfold; intuition congruence..].
Qed.

(** X4.  In the headers that are written to the log, [authorization] always
    reads [Bearer ****], so the account's token is not logged there; a
    non-empty [Authorization], [cookie] or [Cookie] is masked as well; every
    other header is logged as it is sent upstream. *)
Theorem safeHeaders_masks_token
    (proxyTimeoutMs : Z) (base sessionId : string) (req : Request) :
  let sent := ac_headers (axiosConfig proxyTimeoutMs base sessionId req) in
  safeHeaders sent !! "authorization" = Some "Bearer ****" ∧
  (∀ v, sent !! "Authorization" = Some v → v ≠ "" →
     safeHeaders sent !! "Authorization" = Some "Bearer ****") ∧
  (∀ k v, k ∈ ["cookie"; "Cookie"] → sent !! k = Some v → v ≠ "" →
     safeHeaders sent !! k = Some "****") ∧
  (∀ k, k ∉ ["authorization"; "Authorization"; "cookie"; "Cookie"] →
     safeHeaders sent !! k = sent !! k).
Proof.
  intros sent.
  assert (sent !! "authorization" = Some ("Bearer " +:+ sessionId)) as Hauth.
  { subst sent.
    change (ac_headers (axiosConfig proxyTimeoutMs base sessionId req))
      with (outboundHeaders (headers req) sessionId).
    by rewrite outboundHeaders_lookup. }
  clearbody sent. split_and!.
  - rewrite safeHeaders_lookup_authorization by set_solver. by rewrite Hauth.
  - intros v Hv Hne. rewrite safeHeaders_lookup_authorization by set_solver.
    rewrite Hv. by destruct v.
  - intros k v Hk Hv Hne. rewrite safeHeaders_lookup_cookie by done.
    rewrite Hv. by destruct v.
  - intros k Hk. by apply safeHeaders_lookup_other.
Qed.

Lemma axiosConfig_withBody
    (proxyTimeoutMs : Z) (base sessionId : string) (req : Request) (b : option string) :
  Js.toUpperCase (method req) ∈ ["GET"; "HEAD"] →
  axiosConfig proxyTimeoutMs base sessionId (withBody req b) =
  axiosConfig proxyTimeoutMs base sessionId req.
Proof.
  intros Hget. unfold axiosConfig, originalPath. simpl.
  by rewrite bool_decide_eq_true_2 by done.
Qed.

(** X5.  The body of a request whose method is GET or HEAD in any capitalization
    has no effect on what the handler does: nothing of it reaches the
    upstream; the body of every other request is handed to [axios] as it
    is. *)
Theorem handler_ignores_body_of_GET
    (axios : AxiosConfig → AxiosOutcome) (proxyTimeoutMs : Z) (base : option string)
    (all : list Account) (rrIndex : nat) (req : Request) :
  (Js.toUpperCase (method req) ∈ ["GET"; "HEAD"] →
   ∀ b, handler axios proxyTimeoutMs base all rrIndex (withBody req b) =
        handler axios proxyTimeoutMs base all rrIndex req) ∧
  (Js.toUpperCase (method req) ∉ ["GET"; "HEAD"] →
   ∀ sessionId, ac_data (axiosConfig proxyTimeoutMs (default "" base) sessionId req) = body req).
Proof.
  split.
  - intros Hget b. unfold handler. simpl.
    destruct (negb (Js.truthy base)); [done|].
    destruct (_ || _); [done|].
    destruct (Selector.pickAccount all rrIndex) as [[account|] rr']; [|done].
    destruct (negb _); [done|].
    by rewrite axiosConfig_withBody.
  - intros Hother sessionId. simpl. by rewrite bool_decide_eq_false_2.
Qed.

End DispatcherMore.

(** * Further properties of the account manager *)

Section ManagerMore.

Import Manager.

Variable login : string → string → LoginOutcome.
Variable refreshSessionId : Account → RefreshOutcome.
Variable isSessionIdExpiringSoon : option Z → Z → bool.
Variable saveAccount : string → SaveData → SaveOutcome.

Lemma findIndex_None {A} (p : A → bool) (l : list A) :
  Js.findIndex p l = None ↔ ∀ x, x ∈ l → p x = false.
Proof.
  induction l as [|x l IH]; simpl.
  - split; [|done]. intros _ y Hy. by apply elem_of_nil in Hy.
  - destruct (p x) eqn:Hx.
    + split; [done|]. intros Hall. specialize (Hall x). rewrite Hall in Hx by left. done.
    + rewrite fmap_None, IH. split; intros Hall y Hy.
      * apply elem_of_cons in Hy as [->|Hy]; [done|by apply Hall].
      * apply Hall. by right.
Qed.

Lemma findIndex_first {A} (p : A → bool) (l : list A) (i : nat) :
  Js.findIndex p l = Some i →
  ∀ j y, j < i → l !! j = Some y → p y = false.
Proof.
  revert i. induction l as [|x l IH]; intros i Hi j y Hj Hy; simpl in *; [done|].
  destruct (p x) eqn:Hx.
  - injection Hi as <-. lia.
  - destruct (Js.findIndex p l) as [i'|]; [|done]. injection Hi as <-.
    destruct j as [|j]; simpl in Hy.
    + by injection Hy as <-.
    + apply (IH i' eq_refl j); [lia|done].
Qed.

Lemma findIndex_snoc {A} (p : A → bool) (l : list A) (y : A) :
  (∀ x, x ∈ l → p x = false) → p y = true →
  Js.findIndex p (l ++ [y]) = Some (length l).
Proof.
  intros Hall Hy. induction l as [|x l IH]; simpl.
  - by rewrite Hy.
  - rewrite Hall by left. rewrite IH; [done|]. intros z Hz. apply Hall. by right.
Qed.

Lemma find_findIndex {A} (p : A → bool) (l : list A) (a : A) :
  Js.find p l = Some a →
  ∃ i, Js.findIndex p l = Some i ∧ l !! i = Some a ∧ p a = true.
Proof.
  induction l as [|x l IH]; simpl; [done|].
  destruct (p x) eqn:Hx.
  - intros [= <-]. by exists 0.
  - intros Hfind. destruct (IH Hfind) as (i & -> & Hi & Ha). by exists (S i).
Qed.

Lemma find_None_iff {A} (p : A → bool) (l : list A) :
  Js.find p l = None ↔ ∀ x, x ∈ l → p x = false.
Proof.
  split; [apply find_None|].
  intros Hall. induction l as [|x l IH]; simpl; [done|].
  rewrite Hall by left. apply IH. intros y Hy. apply Hall. by right.
Qed.

Lemma sameEmail_false (e : string) (acc : Account) :
  sameEmail e acc = false ↔ email acc ≠ e.
Proof. unfold sameEmail. apply bool_decide_eq_false. Qed.

Lemma sameEmail_true (e : string) (acc : Account) :
  sameEmail e acc = true ↔ email acc = e.
Proof. unfold sameEmail. apply bool_decide_eq_true. Qed.

Lemma absent_no_match (e : string) (accounts : list Account) :
  (∀ acc, acc ∈ accounts → email acc ≠ e) ↔
  (∀ acc, acc ∈ accounts → sameEmail e acc = false).
Proof. split; intros H acc Hacc; apply sameEmail_false; by apply H. Qed.

Lemma removeAccount_eq (e : string) (s : State) :
  removeAccount e s =
    match Js.findIndex (sameEmail e) (dreaminaAccounts s) with
    | None => (false, s)
    | Some index =>
        (true, {| dreaminaAccounts := delete index (dreaminaAccounts s);
                  isInitialized := isInitialized s; calls := calls s |})
    end.
Proof.
  unfold removeAccount, mbind, M_bind, mret, M_ret, getAllAccounts, setAllAccounts.
  by destruct (Js.findIndex _ _).
Qed.

(** X6.  [removeAccount] calls no collaborator and keeps every field but the
    list; with no account of that e-mail it returns [false] and keeps the
    list; otherwise it returns [true] and deletes the first account of that
    e-mail, only that one; when the e-mails of the store are pairwise
    distinct, no account of that e-mail is left. *)
Theorem removeAccount_removes_first (e : string) (s : State) :
  let r := removeAccount e s in
  isInitialized r.2 = isInitialized s ∧
  calls r.2 = calls s ∧
  ((∀ acc, acc ∈ dreaminaAccounts s → email acc ≠ e) →
     r.1 = false ∧ dreaminaAccounts r.2 = dreaminaAccounts s) ∧
  (∀ acc, acc ∈ dreaminaAccounts s → email acc = e →
     r.1 = true ∧
     ∃ i a, dreaminaAccounts s !! i = Some a ∧ email a = e ∧
            (∀ j a', j < i → dreaminaAccounts s !! j = Some a' → email a' ≠ e) ∧
            dreaminaAccounts r.2 = delete i (dreaminaAccounts s)) ∧
  (NoDup (email <$> dreaminaAccounts s) →
     ∀ acc, acc ∈ dreaminaAccounts r.2 → email acc ≠ e).
Proof.
  intros r. subst r. rewrite removeAccount_eq.
  destruct (Js.findIndex _ _) as [i|] eqn:Hfind; simpl.
  - pose proof (findIndex_Some _ _ _ Hfind) as (a & Ha & Hmail).
    apply sameEmail_true in Hmail.
    split_and!; [done|done| | |].
    + intros Habsent. destruct (Habsent a); [|done]. by eapply list_elem_of_lookup_2.
    + intros _ _ _. split; [done|]. exists i, a. split_and!; [done|done| |done].
      intros j a' Hj Ha'. apply sameEmail_false. by eapply findIndex_first.
    + intros Hnodup acc Hacc Hmail'.
      apply list_elem_of_lookup in Hacc as [j Hj].
      assert (∃ j', j' ≠ i ∧ dreaminaAccounts s !! j' = Some acc) as (j' & Hne & Hj').
      { destruct (decide (j < i)).
        - exists j. split; [lia|]. by rewrite list_lookup_delete_lt in Hj.
        - exists (S j). split; [lia|]. by rewrite list_lookup_delete_ge in Hj by lia. }
      apply Hne. apply (NoDup_lookup (email <$> dreaminaAccounts s) j' i e); [done|..].
      * by rewrite list_lookup_fmap, Hj', <-Hmail'.
      * by rewrite list_lookup_fmap, Ha, <-Hmail.
  - pose proof (proj1 (findIndex_None _ _) Hfind) as Hnone. clear Hfind.
    rename Hnone into Hfind.
    split_and!; [done|done|done| |].
    + intros acc Hacc Hmail. apply Hfind in Hacc. apply sameEmail_false in Hacc. done.
    + intros _ acc Hacc. apply sameEmail_false. by apply Hfind.
Qed.

Lemma addAccount_eq (e p : string) (s : State) :
  addAccount login saveAccount e p s =
    match Js.find (sameEmail e) (dreaminaAccounts s) with
    | Some _ => (false, s)
    | None =>
        match login e p with
        | LoggedIn result =>
            let newAccount := mkAccount e p None None (lr_sessionid result) (lr_expires result) in
            (match saveAccount e (newAccountData newAccount) with
             | Saved => true
             | SaveThrew => false
             end,
             {| dreaminaAccounts := dreaminaAccounts s ++ [newAccount];
                isInitialized := isInitialized s;
                calls := calls s ++ [LoginCall e p; SaveCall e (newAccountData newAccount)] |})
        | LoginNull | LoginThrew =>
            (false, {| dreaminaAccounts := dreaminaAccounts s;
                       isInitialized := isInitialized s;
                       calls := calls s ++ [LoginCall e p] |})
        end
    end.
Proof.
  unfold addAccount, mbind, M_bind, mret, M_ret, getAllAccounts, setAllAccounts, emit.
  destruct (Js.find _ _); [done|].
  destruct (login e p); simpl; [|done..].
  destruct (saveAccount _ _); by rewrite <-(assoc_L (++)).
Qed.

(** X7.  [addAccount] returns [true] exactly when the e-mail is new, the login
    gives a result and the save does not throw. *)
Theorem addAccount_true_iff (e p : string) (s : State) :
  (addAccount login saveAccount e p s).1 = true ↔
  (∀ acc, acc ∈ dreaminaAccounts s → email acc ≠ e) ∧
  ∃ result, login e p = LoggedIn result ∧
    saveAccount e (newAccountData
      (mkAccount e p None None (lr_sessionid result) (lr_expires result))) = Saved.
Proof.
  rewrite addAccount_eq, absent_no_match, <-find_None_iff.
  destruct (Js.find _ _); simpl.
  - split; [done|]. by intros [? _].
  - destruct (login e p) as [result| |]; simpl.
    + destruct (saveAccount _ _) eqn:Hsave.
      * split; [|done]. intros _. split; [done|]. by exists result.
      * split; [done|]. intros [_ (result' & [= <-] & Hsave')]. congruence.
    + split; [done|]. by intros [_ (? & ? & _)].
    + split; [done|]. by intros [_ (? & ? & _)].
Qed.

(** X8.  The store and the persistence can part: the store takes the new
    account as soon as the e-mail is new and the login gives a result, also
    when the save throws and [addAccount] returns [false]; a login that
    returns [null] or throws leaves the store as it is and nothing is
    saved. *)
Theorem addAccount_store (e p : string) (s : State) :
  (∀ acc, acc ∈ dreaminaAccounts s → email acc ≠ e) →
  let r := addAccount login saveAccount e p s in
  match login e p with
  | LoggedIn result =>
      dreaminaAccounts r.2 =
        dreaminaAccounts s ++
          [mkAccount e p None None (lr_sessionid result) (lr_expires result)] ∧
      length (saveCalls (calls r.2)) = S (length (saveCalls (calls s)))
  | LoginNull | LoginThrew =>
      r.1 = false ∧ dreaminaAccounts r.2 = dreaminaAccounts s ∧
      saveCalls (calls r.2) = saveCalls (calls s)
  end ∧
  loginCalls (calls r.2) = loginCalls (calls s) ++ [(e, p)].
Proof.
  intros Habsent r. subst r. rewrite addAccount_eq.
  rewrite (proj2 (find_None_iff _ _) (proj1 (absent_no_match _ _) Habsent)).
  unfold saveCalls, loginCalls.
  destruct (login e p); simpl; rewrite !omap_app; simpl;
    rewrite ?app_nil_r, ?length_app; simpl; split_and!; try done; lia.
Qed.

(** X9.  Adding a new account and removing it again gives the list of accounts
    back. *)
Theorem addAccount_removeAccount (e p : string) (s : State) (result : LoginResult) :
  (∀ acc, acc ∈ dreaminaAccounts s → email acc ≠ e) →
  login e p = LoggedIn result →
  let s1 := (addAccount login saveAccount e p s).2 in
  (removeAccount e s1).1 = true ∧
  dreaminaAccounts (removeAccount e s1).2 = dreaminaAccounts s.
Proof.
  intros Habsent Hlogin s1. subst s1. rewrite addAccount_eq.
  pose proof (proj2 (find_None_iff _ _) (proj1 (absent_no_match _ _) Habsent)) as Hfind.
  rewrite Hfind, Hlogin. simpl. rewrite removeAccount_eq. simpl.
  rewrite findIndex_snoc; [| by apply absent_no_match | by apply sameEmail_true].
  simpl. split; [done|].
  by rewrite delete_middle, app_nil_r.
Qed.

Lemma removeAccount_NoDup (e : string) (s : State) :
  NoDup (email <$> dreaminaAccounts s) →
  NoDup (email <$> dreaminaAccounts (removeAccount e s).2).
Proof.
  intros Hnodup. rewrite removeAccount_eq.
  destruct (Js.findIndex _ _) as [i|]; simpl; [|done].
  rewrite list_fmap_delete. eapply sublist_NoDup; [done|apply sublist_delete].
Qed.

(** X10.  [addAccount] is its check followed by its second turn.  Run with
    nothing in between, it keeps the e-mails of the store pairwise distinct,
    and so does [removeAccount], which has no [await].  But the check and
    the [push] are two turns: when two adds of one new e-mail both pass the
    check before the login of either has settled, both append, and the
    store ends with two accounts of that e-mail. *)
Theorem addAccount_overlap_duplicates (e p : string) (s : State) :
  addAccount login saveAccount e p s =
    (if (addAccountCheck e p s).1
     then addAccountResume saveAccount e p (login e p) (addAccountCheck e p s).2
     else (false, (addAccountCheck e p s).2)) ∧
  (NoDup (email <$> dreaminaAccounts s) →
     NoDup (email <$> dreaminaAccounts (addAccount login saveAccount e p s).2) ∧
     NoDup (email <$> dreaminaAccounts (removeAccount e s).2)) ∧
  ((∀ acc, acc ∈ dreaminaAccounts s → email acc ≠ e) →
   ∀ p' result result',
     let first := addAccountCheck e p s in
     let second := addAccountCheck e p' first.2 in
     let s3 := (addAccountResume saveAccount e p (LoggedIn result) second.2).2 in
     let s4 := (addAccountResume saveAccount e p' (LoggedIn result') s3).2 in
     first.1 = true ∧ second.1 = true ∧
     dreaminaAccounts s4 =
       dreaminaAccounts s ++
         [mkAccount e p None None (lr_sessionid result) (lr_expires result);
          mkAccount e p' None None (lr_sessionid result') (lr_expires result')]).
Proof.
  split_and!.
  - unfold addAccount, addAccountCheck, addAccountResume,
      mbind, M_bind, mret, M_ret, getAllAccounts, setAllAccounts, emit.
    destruct (Js.find _ _); [done|]. simpl.
    destruct (login e p); [|done..]. simpl. by destruct (saveAccount _ _).
  - intros Hnodup. split; [by apply addAccount_NoDup|by apply removeAccount_NoDup].
  - intros Habsent p' result result' first second s3 s4.
    subst s4 s3 second first.
    unfold addAccountCheck, addAccountResume,
      mbind, M_bind, mret, M_ret, getAllAccounts, setAllAccounts, emit.
    rewrite (proj2 (find_None_iff _ _) (proj1 (absent_no_match _ _) Habsent)). simpl.
    rewrite (proj2 (find_None_iff _ _) (proj1 (absent_no_match _ _) Habsent)). simpl.
    split_and!; [done..|].
    destruct (saveAccount e _); simpl; destruct (saveAccount e _); simpl;
      by rewrite <-(assoc_L (++)).
Qed.

End ManagerMore.

(** * Further properties of the refresh scan and of [refreshAccount] *)

Section ScanMore.

Import Manager.

Variable refreshSessionId : Account → RefreshOutcome.
Variable isSessionIdExpiringSoon : option Z → Z → bool.
Variable saveAccount : string → SaveData → SaveOutcome.

Lemma refreshOne_delays (account : Account) (counts : nat * nat) (s : State) :
  delays (calls (refreshOne refreshSessionId saveAccount account counts s).2) =
    delays (calls s) ++ [2000%Z].
Proof.
  destruct counts. rewrite refreshOne_eq. unfold delays.
  destruct (refreshSessionId account); simpl; by rewrite omap_app.
Qed.

Lemma refreshLoop_delays (needsRefresh : list Account) (counts : nat * nat) (s : State) :
  delays (calls (refreshLoop refreshSessionId saveAccount needsRefresh counts s).2) =
    delays (calls s) ++ replicate (length needsRefresh) 2000%Z.
Proof.
  revert counts s. induction needsRefresh as [|account rest IH]; intros counts s.
  - simpl. by rewrite app_nil_r.
  - rewrite refreshLoop_cons, IH, refreshOne_delays. simpl.
    by rewrite <-(assoc_L (++)).
Qed.

Lemma refreshOne_length (account : Account) (counts : nat * nat) (s : State) :
  length (dreaminaAccounts (refreshOne refreshSessionId saveAccount account counts s).2) =
    length (dreaminaAccounts s).
Proof.
  rewrite refreshOne_accounts.
  destruct (refreshSessionId account); [|done..].
  destruct (Js.findIndex _ _); [apply length_insert|done].
Qed.

Lemma refreshOne_emails (account : Account) (counts : nat * nat) (s : State) :
  (∀ a u, refreshSessionId a = Refreshed u → email u = email a) →
  email <$> dreaminaAccounts (refreshOne refreshSessionId saveAccount account counts s).2 =
  email <$> dreaminaAccounts s.
Proof.
  intros Hkeep. rewrite refreshOne_accounts.
  destruct (refreshSessionId account) as [u| |] eqn:Hacc; [|done..].
  destruct (Js.findIndex _ _) as [i|] eqn:Hfind; [|done].
  apply findIndex_Some in Hfind as (y & Hy & Hmail).
  apply sameEmail_true in Hmail.
  rewrite list_fmap_insert. apply list_insert_id.
  rewrite list_lookup_fmap, Hy. simpl. f_equal.
  rewrite (Hkeep _ _ Hacc). done.
Qed.

Lemma refreshLoop_length (needsRefresh : list Account) (counts : nat * nat) (s : State) :
  length (dreaminaAccounts (refreshLoop refreshSessionId saveAccount needsRefresh counts s).2) =
    length (dreaminaAccounts s).
Proof.
  revert counts s. induction needsRefresh as [|account rest IH]; intros counts s; [done|].
  by rewrite refreshLoop_cons, IH, refreshOne_length.
Qed.

Lemma refreshLoop_emails (needsRefresh : list Account) (counts : nat * nat) (s : State) :
  (∀ a u, refreshSessionId a = Refreshed u → email u = email a) →
  email <$> dreaminaAccounts (refreshLoop refreshSessionId saveAccount needsRefresh counts s).2 =
  email <$> dreaminaAccounts s.
Proof.
  intros Hkeep. revert counts s.
  induction needsRefresh as [|account rest IH]; intros counts s; [done|].
  by rewrite refreshLoop_cons, IH, refreshOne_emails.
Qed.

(** The state after the scan: the state after the loop over the candidates,
    or the state before when the scan returns early. *)
Lemma autoRefreshSessionIds_state (thresholdHours : Z) (s : State) :
  let needsRefresh :=
    List.filter
      (λ account, isSessionIdExpiringSoon (sessionid_expires account) thresholdHours)
      (dreaminaAccounts s) in
  (autoRefreshSessionIds refreshSessionId isSessionIdExpiringSoon saveAccount
     thresholdHours s).2 =
    if isInitialized s
    then (refreshLoop refreshSessionId saveAccount needsRefresh (0, 0) s).2
    else s.
Proof.
  intros needsRefresh.
  unfold autoRefreshSessionIds, mbind, M_bind, mret, M_ret, getInitialized, getAllAccounts.
  destruct (isInitialized s); simpl; [|done].
  fold needsRefresh. case_decide as Hlen.
  - apply nil_length_inv in Hlen. by rewrite Hlen.
  - by destruct (refreshLoop _ _ _ _ _).
Qed.

(** X11.  The scan never adds, removes or moves an account: the store keeps its
    length and the manager its initialization flag; when the token manager
    returns records under the e-mail it was given, the store keeps its
    e-mails, slot by slot. *)
Theorem autoRefreshSessionIds_keeps_accounts (thresholdHours : Z) (s : State) :
  let r := autoRefreshSessionIds refreshSessionId isSessionIdExpiringSoon saveAccount
             thresholdHours s in
  length (dreaminaAccounts r.2) = length (dreaminaAccounts s) ∧
  isInitialized r.2 = isInitialized s ∧
  ((∀ a u, refreshSessionId a = Refreshed u → email u = email a) →
   email <$> dreaminaAccounts r.2 = email <$> dreaminaAccounts s).
Proof.
  intros r. subst r. rewrite autoRefreshSessionIds_state.
  destruct (isInitialized s) eqn:Hinit; [|done].
  split_and!.
  - apply refreshLoop_length.
  - by pose proof (refreshLoop_counts refreshSessionId saveAccount
                     (List.filter _ (dreaminaAccounts s)) (0, 0) s) as (_ & _ & -> & _).
  - intros Hkeep. by apply refreshLoop_emails.
Qed.

(** A write of the loop lands only on the slot of a candidate. *)
Lemma refreshLoop_keeps_others (store0 needsRefresh : list Account)
    (frozen : Account → Prop) (counts : nat * nat) (s : State) :
  NoDup (email <$> store0) →
  (∀ account, account ∈ needsRefresh → account ∈ store0 ∧ ¬ frozen account) →
  (∀ i a, store0 !! i = Some a → frozen a → dreaminaAccounts s !! i = Some a) →
  ∀ i a, store0 !! i = Some a → frozen a →
    dreaminaAccounts (refreshLoop refreshSessionId saveAccount needsRefresh counts s).2 !! i
      = Some a.
Proof.
  intros Hnodup. revert counts s.
  induction needsRefresh as [|account rest IH]; intros counts s Hsub Hinv; [done|].
  rewrite refreshLoop_cons. apply IH.
  { intros x Hx. apply Hsub. by right. }
  intros i a Hi Ha. rewrite refreshOne_accounts.
  destruct (refreshSessionId account) as [u| |]; [|by eauto..].
  destruct (Js.findIndex _ _) as [index|] eqn:Hfind; [|by eauto].
  destruct (decide (index = i)) as [->|Hne]; [exfalso|].
  - apply findIndex_Some in Hfind as (y & Hy & Hmail).
    rewrite (Hinv i a Hi Ha) in Hy. injection Hy as <-.
    apply sameEmail_true in Hmail.
    destruct (Hsub account) as [Hin Hnot]; [by left|].
    apply list_elem_of_lookup in Hin as [j Hj].
    assert (i = j) as <-.
    { apply (NoDup_lookup (email <$> store0) i j (email a)); [done|..].
      - by rewrite list_lookup_fmap, Hi.
      - by rewrite list_lookup_fmap, Hj, Hmail. }
    assert (a = account) as -> by congruence. done.
  - rewrite list_lookup_insert_ne by done. eauto.
Qed.

(** X12.  The scan of an initialized manager whose e-mails are pairwise distinct,
    for any threshold: [refreshSessionId] is called for the accounts that
    expire soon and for no other, in store order; the scan waits 2000 ms
    once per candidate, also after a failure; the count is the number of
    candidates that were refreshed and saved; an account that does not
    expire soon stays in its slot as it is; without any candidate the scan
    returns 0 and nothing happens. *)
Theorem autoRefreshSessionIds_candidates_only (thresholdHours : Z) (s : State) :
  isInitialized s = true →
  NoDup (email <$> dreaminaAccounts s) →
  let needsRefresh :=
    List.filter
      (λ account, isSessionIdExpiringSoon (sessionid_expires account) thresholdHours)
      (dreaminaAccounts s) in
  let r := autoRefreshSessionIds refreshSessionId isSessionIdExpiringSoon saveAccount
             thresholdHours s in
  refreshCalls (calls r.2) = refreshCalls (calls s) ++ needsRefresh ∧
  delays (calls r.2) = delays (calls s) ++ replicate (length needsRefresh) 2000%Z ∧
  r.1 = length (List.filter (iterationSucceeded refreshSessionId saveAccount) needsRefresh) ∧
  (∀ i a, dreaminaAccounts s !! i = Some a →
     isSessionIdExpiringSoon (sessionid_expires a) thresholdHours = false →
     dreaminaAccounts r.2 !! i = Some a) ∧
  (needsRefresh = [] → r = (0, s)).
Proof.
  intros Hinit Hnodup needsRefresh r.
  assert (r.2 = (refreshLoop refreshSessionId saveAccount needsRefresh (0, 0) s).2) as Hstate.
  { subst r. rewrite autoRefreshSessionIds_state. by rewrite Hinit. }
  split_and!.
  - rewrite Hstate.
    by pose proof (refreshLoop_counts refreshSessionId saveAccount needsRefresh (0, 0) s)
      as (_ & _ & _ & ->).
  - rewrite Hstate. apply refreshLoop_delays.
  - subst r. by rewrite autoRefreshSessionIds_count.
  - intros i a Hi Ha. rewrite Hstate.
    apply (refreshLoop_keeps_others (dreaminaAccounts s) needsRefresh
             (λ a, isSessionIdExpiringSoon (sessionid_expires a) thresholdHours = false));
      [done| |done..].
    intros account Hacc. subst needsRefresh.
    apply list_elem_of_In, filter_In in Hacc as [Hin Hsoon].
    split; [by apply list_elem_of_In|]. by rewrite Hsoon.
  - intros Hnil. subst r.
    unfold autoRefreshSessionIds, mbind, M_bind, mret, M_ret, getInitialized, getAllAccounts.
    rewrite Hinit. simpl. fold needsRefresh. by rewrite Hnil.
Qed.

Lemma refreshAccount_eq (e : string) (s : State) :
  refreshAccount refreshSessionId saveAccount e s =
    match Js.find (sameEmail e) (dreaminaAccounts s) with
    | None => (Returned false, s)
    | Some account =>
        match refreshSessionId account with
        | Refreshed updatedAccount =>
            (match saveAccount e (refreshedData updatedAccount) with
             | Saved => Returned true
             | SaveThrew => Thrown
             end,
             {| dreaminaAccounts :=
                  match Js.findIndex (sameEmail e) (dreaminaAccounts s) with
                  | Some index => <[index := updatedAccount]> (dreaminaAccounts s)
                  | None => dreaminaAccounts s
                  end;
                isInitialized := isInitialized s;
                calls := calls s ++ [RefreshCall account;
                                     SaveCall e (refreshedData updatedAccount)] |})
        | RefreshNull =>
            (Returned false,
             {| dreaminaAccounts := dreaminaAccounts s; isInitialized := isInitialized s;
                calls := calls s ++ [RefreshCall account] |})
        | RefreshThrew =>
            (Thrown,
             {| dreaminaAccounts := dreaminaAccounts s; isInitialized := isInitialized s;
                calls := calls s ++ [RefreshCall account] |})
        end
    end.
Proof.
  unfold refreshAccount, mbind, M_bind, mret, M_ret, getAllAccounts, setAllAccounts, emit.
  destruct (Js.find _ _) as [account|]; [|done].
  destruct (refreshSessionId account); simpl; [|done..].
  destruct (Js.findIndex _ _), (saveAccount _ _); simpl; by rewrite <-(assoc_L (++)).
Qed.

(** X13.  [refreshAccount] keeps the length of the store.  When it returns
    [true], the record that [refreshSessionId] gave for the first account of
    that e-mail is in that account's slot, every other slot is as before,
    and that record was saved under the e-mail.  When it returns [false]
    (no such account, or a refresh that gave [null]) the store is as before
    and nothing is saved.  With no account of that e-mail no collaborator is
    called. *)
Theorem refreshAccount_replaces_slot (e : string) (s : State) :
  let r := refreshAccount refreshSessionId saveAccount e s in
  length (dreaminaAccounts r.2) = length (dreaminaAccounts s) ∧
  (r.1 = Returned true →
     ∃ i account u,
       dreaminaAccounts s !! i = Some account ∧ email account = e ∧
       (∀ j a, j < i → dreaminaAccounts s !! j = Some a → email a ≠ e) ∧
       refreshSessionId account = Refreshed u ∧
       dreaminaAccounts r.2 = <[i := u]> (dreaminaAccounts s) ∧
       saveCalls (calls r.2) = saveCalls (calls s) ++ [(e, refreshedData u)]) ∧
  (r.1 = Returned false →
     dreaminaAccounts r.2 = dreaminaAccounts s ∧
     saveCalls (calls r.2) = saveCalls (calls s)) ∧
  ((∀ acc, acc ∈ dreaminaAccounts s → email acc ≠ e) → r = (Returned false, s)).
Proof.
  intros r. subst r. rewrite refreshAccount_eq.
  destruct (Js.find _ _) as [account|] eqn:Hfind.
  - destruct (find_findIndex _ _ _ Hfind) as (i & Hi & Hacc & Hmail).
    apply sameEmail_true in Hmail. rewrite Hi.
    assert (¬ ∀ acc, acc ∈ dreaminaAccounts s → email acc ≠ e) as Hpresent.
    { intros Habsent. apply (Habsent account); [|done]. by eapply list_elem_of_lookup_2. }
    unfold saveCalls.
    destruct (refreshSessionId account) as [u| |] eqn:Hrefresh; simpl.
    + split_and!; [apply length_insert| |by destruct (saveAccount _ _)|done].
      intros _. exists i, account, u. split_and!; [done|done| |done|done|].
      * intros j a Hj Ha. apply sameEmail_false. by eapply findIndex_first.
      * by rewrite omap_app.
    + split_and!; [done|done| |done]. intros _. rewrite omap_app. simpl.
      by rewrite app_nil_r.
    + split_and!; done.
  - simpl. split_and!; done.
Qed.

End ScanMore.

(** * Properties of the start-up ([loadAccounts], [_initialize]) *)

Section StartupMore.

Import Manager.

Variable login : string → string → LoginOutcome.
Variable validateSessionId : string → option Z → bool.
Variable persisted : LoadOutcome.

Lemma validateLoop_cons (account : Account) (rest validAccounts : list Account) (s : State) :
  validateLoop login validateSessionId (account :: rest) validAccounts s =
    if sessionValid validateSessionId account
    then validateLoop login validateSessionId rest (validAccounts ++ [account]) s
    else if needsLogin validateSessionId account then
      let s1 := {| dreaminaAccounts := dreaminaAccounts s; isInitialized := isInitialized s;
                   calls := calls s ++ [LoginCall (email account) (password account)] |} in
      match login (email account) (password account) with
      | LoggedIn result =>
          validateLoop login validateSessionId rest
            (validAccounts ++ [withSession account result]) s1
      | LoginNull => validateLoop login validateSessionId rest validAccounts s1
      | LoginThrew => (Thrown, s1)
      end
    else validateLoop login validateSessionId rest validAccounts s.
Proof.
  unfold needsLogin, sessionValid. cbn [validateLoop].
  destruct (Js.truthy (sessionid account) &&
            validateSessionId (default "" (sessionid account)) (sessionid_expires account));
    cbn [negb andb]; [done|].
  destruct (Js.truthy (Some (email account)) && Js.truthy (Some (password account)));
    [|done].
  unfold mbind, M_bind, emit. by destruct (login _ _).
Qed.

Lemma validateLoop_result (accounts validAccounts : list Account) (s : State) :
  (validateLoop login validateSessionId accounts validAccounts s).1 =
    if existsb (loginThrows login validateSessionId) accounts then Thrown
    else Returned (validAccounts ++ omap (revalidated login validateSessionId) accounts).
Proof.
  revert validAccounts s. induction accounts as [|account rest IH]; intros valid s.
  - simpl. by rewrite app_nil_r.
  - rewrite validateLoop_cons. simpl existsb. simpl omap.
    unfold loginThrows at 1, revalidated at 1.
    destruct (sessionValid validateSessionId account) eqn:Hvalid.
    + assert (needsLogin validateSessionId account = false) as ->
        by (unfold needsLogin; by rewrite Hvalid).
      simpl. rewrite IH. by rewrite <-(assoc_L (++)).
    + destruct (needsLogin validateSessionId account); simpl; [|apply IH].
      destruct (login _ _); simpl; rewrite ?IH; [|done..].
      by rewrite <-(assoc_L (++)).
Qed.

Lemma validateLoop_state (accounts validAccounts : list Account) (s : State) :
  let s' := (validateLoop login validateSessionId accounts validAccounts s).2 in
  dreaminaAccounts s' = dreaminaAccounts s ∧
  isInitialized s' = isInitialized s ∧
  saveCalls (calls s') = saveCalls (calls s) ∧
  refreshCalls (calls s') = refreshCalls (calls s).
Proof.
  revert validAccounts s. induction accounts as [|account rest IH]; intros valid s; [done|].
  rewrite validateLoop_cons.
  destruct (sessionValid validateSessionId account); [apply IH|].
  destruct (needsLogin validateSessionId account); [|apply IH].
  assert (∀ l, saveCalls (l ++ [LoginCall (email account) (password account)]) = saveCalls l ∧
               refreshCalls (l ++ [LoginCall (email account) (password account)])
                 = refreshCalls l) as Hlog.
  { intros l. unfold saveCalls, refreshCalls. rewrite !omap_app. simpl.
    by rewrite !app_nil_r. }
  cbv zeta.
  destruct (login _ _); simpl.
  - destruct (IH (valid ++ [withSession account result])
                {| dreaminaAccounts := dreaminaAccounts s; isInitialized := isInitialized s;
                   calls := calls s ++ [LoginCall (email account) (password account)] |})
      as (-> & -> & -> & ->).
    simpl. split_and!; try done; apply Hlog.
  - destruct (IH valid
                {| dreaminaAccounts := dreaminaAccounts s; isInitialized := isInitialized s;
                   calls := calls s ++ [LoginCall (email account) (password account)] |})
      as (-> & -> & -> & ->).
    simpl. split_and!; try done; apply Hlog.
  - split_and!; try done; apply Hlog.
Qed.

(** The store after [loadAccounts]. *)
Lemma loadAccounts_accounts (s : State) :
  dreaminaAccounts (loadAccounts login validateSessionId persisted s).2 =
    match persisted with
    | LoadThrew => []
    | Loaded allAccounts =>
        if existsb (loginThrows login validateSessionId) (List.filter hasSession allAccounts)
        then []
        else omap (revalidated login validateSessionId) (List.filter hasSession allAccounts)
    end.
Proof.
  unfold loadAccounts. destruct persisted as [allAccounts|]; [|done].
  unfold _validateAndCleanSessionIds, mbind, M_bind, mret, M_ret,
    getAllAccounts, setAllAccounts. simpl.
  fold hasSession.
  pose proof (validateLoop_result (List.filter hasSession allAccounts) []
                {| dreaminaAccounts := List.filter hasSession allAccounts;
                   isInitialized := isInitialized s; calls := calls s |}) as Hres.
  destruct (validateLoop _ _ _ _ _) as [r s']. simpl in Hres. subst r.
  by destruct (existsb _ _).
Qed.

Lemma loadAccounts_log (s : State) :
  let s' := (loadAccounts login validateSessionId persisted s).2 in
  isInitialized s' = isInitialized s ∧
  saveCalls (calls s') = saveCalls (calls s) ∧
  refreshCalls (calls s') = refreshCalls (calls s).
Proof.
  unfold loadAccounts. destruct persisted as [allAccounts|]; [|done].
  unfold _validateAndCleanSessionIds, mbind, M_bind, mret, M_ret,
    getAllAccounts, setAllAccounts. simpl.
  pose proof (validateLoop_state
                (List.filter
                   (λ account, Js.truthy (sessionid account) ||
                               Js.truthyNumber (sessionid_expires account)) allAccounts) []
                {| dreaminaAccounts :=
                     List.filter
                       (λ account, Js.truthy (sessionid account) ||
                                   Js.truthyNumber (sessionid_expires account)) allAccounts;
                   isInitialized := isInitialized s; calls := calls s |})
    as (_ & Hinit & Hsave & Hrefresh).
  destruct (validateLoop _ _ _ _ _) as [[valid|] s']; simpl in *; done.
Qed.

(** X14.  [loadAccounts] is all or nothing: when reading the persisted accounts
    throws, or when [login] throws for one persisted account that has a
    session field, no valid session, an e-mail and a password, the store
    ends empty, whatever the other accounts are.  In every case the
    initialization flag is kept and nothing is saved. *)
Theorem loadAccounts_throw_empties_store (s : State) :
  let s' := (loadAccounts login validateSessionId persisted s).2 in
  isInitialized s' = isInitialized s ∧
  saveCalls (calls s') = saveCalls (calls s) ∧
  (persisted = LoadThrew → dreaminaAccounts s' = []) ∧
  (∀ allAccounts account,
     persisted = Loaded allAccounts → account ∈ allAccounts →
     hasSession account = true → needsLogin validateSessionId account = true →
     login (email account) (password account) = LoginThrew →
     dreaminaAccounts s' = []).
Proof.
  intros s'. destruct (loadAccounts_log s) as (Hinit & Hsave & _).
  split_and!; [done|done| |]; subst s'; rewrite loadAccounts_accounts.
  - by intros ->.
  - intros allAccounts account -> Hin Hsession Hneeds Hthrow.
    assert (existsb (loginThrows login validateSessionId)
              (List.filter hasSession allAccounts) = true) as ->; [|done].
    apply existsb_exists. exists account. split.
    + apply filter_In. split; [by apply list_elem_of_In|done].
    + unfold loginThrows. by rewrite Hneeds, Hthrow.
Qed.

Lemma revalidated_email (account a : Account) :
  revalidated login validateSessionId account = Some a → email a = email account.
Proof.
  unfold revalidated.
  destruct (sessionValid _ _); [by intros [= <-]|].
  destruct (needsLogin _ _); [|done].
  destruct (login _ _); [|done..]. by intros [= <-].
Qed.

Lemma omap_revalidated_emails (accounts : list Account) :
  email <$> omap (revalidated login validateSessionId) accounts `sublist_of` email <$> accounts.
Proof.
  induction accounts as [|account rest IH]; simpl; [done|].
  destruct (revalidated _ _ account) as [a|] eqn:Ha; simpl.
  - rewrite (revalidated_email _ _ Ha). by apply sublist_skip.
  - by apply sublist_cons.
Qed.

Lemma filter_sublist {A} (p : A → bool) (l : list A) : List.filter p l `sublist_of` l.
Proof.
  induction l as [|x l IH]; simpl; [done|]. destruct (p x); by constructor.
Qed.

(** X15.  When the persisted accounts are read and no [login] throws, the store
    after [loadAccounts] holds, in the persisted order and under their
    persisted e-mails: every persisted account whose session validates, as
    it is, and every other persisted account with a session field, an e-mail
    and a password for which [login] gives a result, with the session of
    that result; and nothing else. *)
Theorem loadAccounts_validated (allAccounts : list Account) (s : State) :
  persisted = Loaded allAccounts →
  (∀ account, account ∈ allAccounts → hasSession account = true →
     needsLogin validateSessionId account = true →
     login (email account) (password account) ≠ LoginThrew) →
  let store := dreaminaAccounts (loadAccounts login validateSessionId persisted s).2 in
  email <$> store `sublist_of` email <$> allAccounts ∧
  (∀ account, account ∈ allAccounts → hasSession account = true →
     sessionValid validateSessionId account = true → account ∈ store) ∧
  (∀ a, a ∈ store ↔
     ∃ account, account ∈ allAccounts ∧ hasSession account = true ∧
       ((sessionValid validateSessionId account = true ∧ a = account) ∨
        (sessionValid validateSessionId account = false ∧
         needsLogin validateSessionId account = true ∧
         ∃ result, login (email account) (password account) = LoggedIn result ∧
                   a = withSession account result))).
Proof.
  intros Hload Hnothrow store. subst store. rewrite loadAccounts_accounts, Hload.
  assert (existsb (loginThrows login validateSessionId)
            (List.filter hasSession allAccounts) = false) as ->.
  { apply not_true_iff_false. intros (account & Hin & Hthrows)%existsb_exists.
    apply filter_In in Hin as [Hin Hsession]. apply list_elem_of_In in Hin.
    unfold loginThrows in Hthrows. apply andb_true_iff in Hthrows as [Hneeds Hthrow].
    apply (Hnothrow account Hin Hsession Hneeds). by destruct (login _ _). }
  assert (∀ a, a ∈ omap (revalidated login validateSessionId)
                       (List.filter hasSession allAccounts) ↔
     ∃ account, account ∈ allAccounts ∧ hasSession account = true ∧
       ((sessionValid validateSessionId account = true ∧ a = account) ∨
        (sessionValid validateSessionId account = false ∧
         needsLogin validateSessionId account = true ∧
         ∃ result, login (email account) (password account) = LoggedIn result ∧
                   a = withSession account result))) as Hmem.
  { intros a. rewrite list_elem_of_omap. split.
    - intros (account & Hin & Hre). exists account.
      apply list_elem_of_In, filter_In in Hin as [Hin Hsession].
      apply list_elem_of_In in Hin. split_and!; [done..|].
      unfold revalidated in Hre.
      destruct (sessionValid _ account); [left; by injection Hre as <-|right].
      destruct (needsLogin _ account); [|done].
      destruct (login _ _) as [result| |]; [|done..]. injection Hre as <-.
      split_and!; [done..|]. by exists result.
    - intros (account & Hin & Hsession & Hcase). exists account. split.
      + apply list_elem_of_In, filter_In. split; [by apply list_elem_of_In|done].
      + unfold revalidated.
        destruct Hcase as [[-> ->]|(-> & -> & result & -> & ->)]; done. }
  split_and!.
  - etrans; [apply omap_revalidated_emails|].
    apply fmap_sublist, filter_sublist.
  - intros account Hin Hsession Hvalid. apply Hmem. exists account. eauto.
  - done.
Qed.

(** X16.  [_initialize] ends with the manager initialized whatever the
    persistence and the token manager do, throws included, with the store
    that [loadAccounts] leaves.  There is no timer when [autoRefresh] is
    off.  Otherwise the timer has the period [autoRefreshInterval] seconds
    when that is between 1 and 2147483 seconds, and 21600 seconds when the
    setting is absent or 0; an interval above 2147483 seconds (24 days and
    20 hours) or below 0 is more than [setInterval] takes, and the timer
    fires every millisecond. *)
Theorem initialize_always_initialized
    (autoRefresh : bool) (autoRefreshInterval : option Z) (s : State) :
  let r := _initialize login validateSessionId persisted autoRefresh autoRefreshInterval s in
  isInitialized r.2 = true ∧
  dreaminaAccounts r.2 = dreaminaAccounts (loadAccounts login validateSessionId persisted s).2 ∧
  calls r.2 = calls (loadAccounts login validateSessionId persisted s).2 ∧
  (autoRefresh = false → r.1 = None) ∧
  (autoRefresh = true →
     (∀ seconds, autoRefreshInterval = Some seconds → (1 ≤ seconds ≤ 2147483)%Z →
        r.1 = Some (seconds * 1000)%Z) ∧
     (∀ seconds, autoRefreshInterval = Some seconds →
        (seconds < 0 ∨ 2147483 < seconds)%Z → r.1 = Some 1%Z) ∧
     (autoRefreshInterval = None ∨ autoRefreshInterval = Some 0%Z →
        r.1 = Some 21600000%Z)).
Proof.
  intros r. subst r. unfold _initialize, mbind, M_bind, mret, M_ret, setInitialized.
  destruct (loadAccounts _ _ _ s) as [[] s']. simpl.
  split_and!; [done..| |].
  - by intros ->.
  - intros ->. split_and!.
    + intros seconds -> Hrange. unfold Js.numberOr, Js.setIntervalDelay. simpl.
      rewrite (proj2 (Z.eqb_neq seconds 0)) by lia. simpl.
      rewrite (proj2 (Z.ltb_ge _ _)), (proj2 (Z.ltb_ge _ _)) by lia. done.
    + intros seconds -> Hrange. unfold Js.numberOr, Js.setIntervalDelay. simpl.
      rewrite (proj2 (Z.eqb_neq seconds 0)) by lia. simpl.
      destruct Hrange as [Hneg|Hbig].
      * by rewrite (proj2 (Z.ltb_lt _ _)) by lia.
      * rewrite (proj2 (Z.ltb_lt 2147483647 _)) by lia. by rewrite orb_true_r.
    + by intros [-> | ->].
Qed.

End StartupMore.

(** * Further properties of the account routes *)

(** Case analysis over the answers of a route. *)
Ltac settle_status :=
  repeat match goal with
         | |- _ ∧ _ => split
         | |- _ ↔ _ => split
         | |- ∀ _, _ => intros ?
         | |- ¬ _ => intros ?
         | H : ∃ _, _ |- _ => destruct H
         | H : _ ∧ _ |- _ => destruct H
         | H : _ ∨ _ |- _ => destruct H
         end;
  simplify_eq;
  first [ done | congruence
        | by left | by (right; left) | by (right; right; left) | by (right; right; right)
        | by eexists _, _, _
        | by (exfalso; unfold not in *; eauto) ].

Section RoutesMore.

Import Manager Routes.

Variable login : string → string → LoginOutcome.
Variable refreshSessionId : Account → RefreshOutcome.
Variable saveAccount : string → SaveData → SaveOutcome.
Variable saveAllAccounts : list Account → SaveOutcome.

Lemma slice_page {A} (l : list A) (start size : nat) :
  Js.slice l (Z.of_nat start) (Z.of_nat start + Z.of_nat size) = take size (drop start l).
Proof.
  unfold Js.slice, Js.sliceIndex.
  rewrite !(proj2 (Z.ltb_ge _ _)) by lia.
  destruct (decide (start ≤ length l)) as [Hle|Hgt].
  - replace (Z.to_nat (Z.min (Z.of_nat start) (Z.of_nat (length l)))) with start by lia.
    replace (Z.to_nat (Z.min (Z.of_nat start + Z.of_nat size) (Z.of_nat (length l))) - start)
      with (min size (length l - start)) by lia.
    rewrite <-take_take. f_equal. apply take_ge. rewrite length_drop. lia.
  - replace (Z.to_nat (Z.min (Z.of_nat start) (Z.of_nat (length l)))) with (length l) by lia.
    rewrite !drop_ge by lia. by rewrite !take_nil.
Qed.

Lemma pages_concat {A} (l : list A) (size k : nat) :
  length l ≤ k * size →
  concat ((λ p, take size (drop (p * size) l)) <$> seq 0 k) = l.
Proof.
  revert l. induction k as [|k IH]; intros l Hlen.
  - simpl in *. destruct l; [done|simpl in Hlen; lia].
  - rewrite <-cons_seq, <-fmap_S_seq. simpl.
    apply (eq_trans (y := take size l ++ drop size l)); [f_equal|apply take_drop].
    etrans; [|apply (IH (drop size l)); rewrite length_drop; lia].
    f_equal. rewrite <-list_fmap_compose. apply list_fmap_ext. intros _ p _. simpl.
    by rewrite drop_drop.
Qed.

Lemma fmap_concat {A B} (f : A → B) (ls : list (list A)) :
  f <$> concat ls = concat ((λ l : list A, f <$> l) <$> ls).
Proof.
  induction ls as [|l ls IH]; simpl; [done|]. by rewrite fmap_app, IH.
Qed.

Lemma routeGetAllAccounts_page (p size : nat) (s : State) :
  0 < size →
  routeGetAllAccounts (Some (Z.of_nat (S p))) (Some (Z.of_nat size)) s =
    ({| pg_total := length (dreaminaAccounts s);
        pg_page := Z.of_nat (S p); pg_pageSize := Z.of_nat size;
        pg_data := viewOf <$> take size (drop (p * size) (dreaminaAccounts s)) |}, s).
Proof.
  intros Hsize.
  unfold routeGetAllAccounts, mbind, M_bind, mret, M_ret, getAllAccounts, Js.numberOr.
  simpl Js.truthyNumber.
  rewrite !(proj2 (Z.eqb_neq _ _)) by lia. simpl negb. cbv iota. simpl default.
  replace ((Z.of_nat (S p) - 1) * Z.of_nat size)%Z with (Z.of_nat (p * size)) by lia.
  by rewrite slice_page.
Qed.

(** X17.  [/getAllAccounts] with a positive page size: the pages 1, 2, ... up to
    one that reaches the end of the store, put one after the other, show
    every account of the store exactly once and in store order; a page never
    holds more than [pageSize] accounts; [total] is the size of the store on
    every page; a page number that is absent, not a number or 0 gives
    page 1; the store is not changed. *)
Theorem routeGetAllAccounts_pages_cover (size k : nat) (s : State) :
  0 < size →
  length (dreaminaAccounts s) ≤ k * size →
  let page := λ p : nat,
    (routeGetAllAccounts (Some (Z.of_nat p)) (Some (Z.of_nat size)) s).1 in
  concat ((λ p, pg_data (page (S p))) <$> seq 0 k) = viewOf <$> dreaminaAccounts s ∧
  (∀ p, length (pg_data (page (S p))) ≤ size ∧
        pg_total (page (S p)) = length (dreaminaAccounts s) ∧
        (routeGetAllAccounts (Some (Z.of_nat (S p))) (Some (Z.of_nat size)) s).2 = s) ∧
  (routeGetAllAccounts None (Some (Z.of_nat size)) s).1 = page 1 ∧
  page 0 = page 1.
Proof.
  intros Hsize Hlen page. subst page. split_and!.
  - rewrite <-(pages_concat (dreaminaAccounts s) size k Hlen) at 1.
    rewrite fmap_concat, <-list_fmap_compose. f_equal.
    apply list_fmap_ext. intros _ p _. unfold compose.
    by rewrite routeGetAllAccounts_page.
  - intros p. rewrite routeGetAllAccounts_page by done. simpl.
    rewrite length_fmap, length_take. split_and!; [lia|done..].
  - done.
  - done.
Qed.

Lemma find_present (e : string) (accounts : list Account) :
  is_Some (Js.find (sameEmail e) accounts) ↔ ∃ acc, acc ∈ accounts ∧ email acc = e.
Proof.
  split.
  - intros [a Ha]. destruct (find_findIndex _ _ _ Ha) as (i & _ & Hi & Hmail).
    exists a. split; [by eapply list_elem_of_lookup_2|by apply sameEmail_true].
  - apply find_sameEmail.
Qed.


Lemma routeRefreshAccount_eq (e : string) (s : State) :
  e ≠ "" →
  routeRefreshAccount refreshSessionId saveAccount (Some e) s =
    match Js.find (sameEmail e) (dreaminaAccounts s) with
    | None => (404%Z, s)
    | Some _ =>
        (match (refreshAccount refreshSessionId saveAccount e s).1 with
         | Returned true => 200%Z
         | Returned false | Thrown => 500%Z
         end,
         (refreshAccount refreshSessionId saveAccount e s).2)
    end.
Proof.
  intros Hne. unfold routeRefreshAccount.
  assert (Js.truthy (Some e) = true) as -> by (by destruct e).
  cbn [negb default]. unfold mbind, M_bind, mret, M_ret, getAllAccounts.
  destruct (Js.find _ _); [|done].
  by destruct (refreshAccount _ _ _ _) as [[[|]|] s'].
Qed.

(** X19.  [/refreshAccount] answers 200 exactly when the e-mail is given, an
    account has it, [refreshSessionId] gives a record for the first such
    account and saving that record does not throw; 400 exactly when the
    e-mail is missing or empty; 404 exactly when it is given and no account
    has it; in every other case 500.  On 400 and 404 nothing is called and
    nothing changes. *)
Theorem routeRefreshAccount_answers (email_ : option string) (s : State) :
  let r := routeRefreshAccount refreshSessionId saveAccount email_ s in
  (r.1 = 200%Z ↔
     ∃ e account u, email_ = Some e ∧ e ≠ "" ∧
       Js.find (sameEmail e) (dreaminaAccounts s) = Some account ∧
       refreshSessionId account = Refreshed u ∧
       saveAccount e (refreshedData u) = Saved) ∧
  (r.1 = 400%Z ↔ Js.truthy email_ = false) ∧
  (r.1 = 404%Z ↔
     Js.truthy email_ = true ∧
     ∀ acc, acc ∈ dreaminaAccounts s → email acc ≠ default "" email_) ∧
  (r.1 = 200%Z ∨ r.1 = 400%Z ∨ r.1 = 404%Z ∨ r.1 = 500%Z) ∧
  (r.1 = 400%Z ∨ r.1 = 404%Z → r.2 = s).
Proof.
  intros r. subst r.
  destruct email_ as [e|]; [destruct (decide (e = "")) as [->|Hne]|].
  - unfold routeRefreshAccount. cbn. settle_status.
  - rewrite routeRefreshAccount_eq by done.
    assert (Js.truthy (Some e) = true) as -> by (by destruct e).
    rewrite refreshAccount_eq. change (default "" (Some e)) with e.
    destruct (Js.find _ _) as [account|] eqn:Hfind.
    + assert (¬ ∀ acc, acc ∈ dreaminaAccounts s → email acc ≠ e) as Hpresent.
      { intros Habsent.
        rewrite (proj2 (find_None_iff _ _) (proj1 (absent_no_match _ _) Habsent)) in Hfind.
        done. }
      destruct (refreshSessionId account) as [u| |] eqn:Hrefresh;
        [destruct (saveAccount _ _) eqn:Hsave|..]; cbn [fst snd]; settle_status.
    + pose proof (proj2 (absent_no_match _ _) (proj1 (find_None_iff _ _) Hfind)) as Habsent.
      cbn [fst snd]. settle_status.
  - unfold routeRefreshAccount. cbn. settle_status.
Qed.

End RoutesMore.

(** * Further properties of account creation through the routes *)

Section CreationMore.

Import Manager Routes.

Variable login : string → string → LoginOutcome.
Variable saveAccount : string → SaveData → SaveOutcome.

Lemma addAccount_growth (e p : string) (s : State) :
  let r := addAccount login saveAccount e p s in
  dreaminaAccounts s `prefix_of` dreaminaAccounts r.2 ∧
  length (dreaminaAccounts s) + (if r.1 then 1 else 0) ≤ length (dreaminaAccounts r.2) ∧
  ((∀ e d, saveAccount e d = Saved) →
   length (dreaminaAccounts r.2) = length (dreaminaAccounts s) + (if r.1 then 1 else 0)).
Proof.
  intros r. subst r. rewrite addAccount_eq.
  destruct (Js.find _ _); simpl.
  { split_and!; [done|lia|intros; lia]. }
  destruct (login e p); simpl.
  - split_and!.
    + by apply prefix_app_r.
    + rewrite length_app. simpl. destruct (saveAccount _ _); lia.
    + intros Hsave. rewrite Hsave, length_app. simpl. lia.
  - split_and!; [done|lia|intros; lia].
  - split_and!; [done|lia|intros; lia].
Qed.

Lemma batchOne_growth (line : string) (sc : nat) (fl : list (string * string)) (s : State) :
  let r := batchOne login saveAccount line (sc, fl) s in
  dreaminaAccounts s `prefix_of` dreaminaAccounts r.2 ∧
  sc ≤ r.1.1 ∧
  length (dreaminaAccounts s) + r.1.1 ≤ length (dreaminaAccounts r.2) + sc ∧
  ((∀ e d, saveAccount e d = Saved) →
   length (dreaminaAccounts s) + r.1.1 = length (dreaminaAccounts r.2) + sc).
Proof.
  intros r. subst r. unfold batchOne.
  destruct (_ || _); simpl.
  { split_and!; [done|lia|lia|intros; lia]. }
  unfold mbind, M_bind, mret, M_ret, getAllAccounts.
  destruct (Js.find _ _); simpl.
  { split_and!; [done|lia|lia|intros; lia]. }
  pose proof (addAccount_growth (default "" (split ":" line !! 0))
                (default "" (split ":" line !! 1)) s) as (Hpre & Hle & Heq).
  destruct (addAccount _ _ _ _ _) as [[|] s']; simpl in *;
    (split_and!; [done|lia|lia|intros Hsave; specialize (Heq Hsave); lia]).
Qed.

Lemma batchLoop_growth (lines : list string) (sc : nat) (fl : list (string * string))
    (s : State) :
  let r := batchLoop login saveAccount lines (sc, fl) s in
  dreaminaAccounts s `prefix_of` dreaminaAccounts r.2 ∧
  sc ≤ r.1.1 ∧
  length (dreaminaAccounts s) + r.1.1 ≤ length (dreaminaAccounts r.2) + sc ∧
  ((∀ e d, saveAccount e d = Saved) →
   length (dreaminaAccounts s) + r.1.1 = length (dreaminaAccounts r.2) + sc).
Proof.
  revert sc fl s. induction lines as [|line rest IH]; intros sc fl s.
  - simpl. split_and!; [done|lia|lia|intros; lia].
  - cbv zeta. rewrite batchLoop_cons.
    pose proof (batchOne_growth line sc fl s) as (Hpre & Hsc & Hle & Heq).
    destruct (batchOne login saveAccount line (sc, fl) s) as [[sc1 fl1] s1]. simpl in *.
    destruct (IH sc1 fl1 s1) as (Hpre' & Hsc' & Hle' & Heq').
    split_and!; [by etrans|lia|lia|].
    intros Hsave. specialize (Heq Hsave). specialize (Heq' Hsave). lia.
Qed.

(** X20.  A bulk creation only appends to the store: the accounts that were there
    stay in their slots; the store grows by at least [successCount], and
    by exactly [successCount] when the persistence accepts every save (an
    account whose save throws is in the store without being counted). *)
Theorem setAccounts_store_grows (accounts : option string) (s : State) :
  let r := setAccounts login saveAccount accounts s in
  dreaminaAccounts s `prefix_of` dreaminaAccounts r.2 ∧
  (∀ n event, r.1 = Accepted n event →
     length (dreaminaAccounts s) + successCount event ≤ length (dreaminaAccounts r.2) ∧
     ((∀ e d, saveAccount e d = Saved) →
      length (dreaminaAccounts r.2) = length (dreaminaAccounts s) + successCount event)).
Proof.
  intros r. subst r. unfold setAccounts.
  destruct (negb _); simpl; [by split|].
  unfold mbind, M_bind, mret, M_ret.
  pose proof (batchLoop_growth (parseList (default "" accounts)) 0 [] s)
    as (Hpre & _ & Hle & Heq).
  destruct (batchLoop _ _ _ _ _) as [[sc fl] s']. simpl in *.
  split; [done|]. intros n event [= <- <-]. simpl.
  split; [lia|]. intros Hsave. specialize (Heq Hsave). lia.
Qed.

Lemma trimStart_idem (s : string) : trimStart (trimStart s) = trimStart s.
Proof.
  induction s as [|c r IH]; simpl; [done|].
  destruct (isWhiteSpace c) eqn:Hc; [done|]. simpl. by rewrite Hc.
Qed.

Lemma trimEnd_idem (s : string) : trimEnd (trimEnd s) = trimEnd s.
Proof.
  induction s as [|c r IH]; simpl; [done|].
  destruct (trimEnd r) as [|c' r'] eqn:Hr.
  - destruct (isWhiteSpace c) eqn:Hc; simpl; [done|]. by rewrite Hc.
  - change (trimEnd (String c (String c' r')))
      with (match trimEnd (String c' r') with
            | EmptyString => if isWhiteSpace c then EmptyString else String c EmptyString
            | String c1 r1 => String c (String c1 r1)
            end).
    by rewrite IH.
Qed.

Lemma trimEnd_head (c : ascii) (r : string) :
  isWhiteSpace c = false → ∃ r', trimEnd (String c r) = String c r'.
Proof.
  intros Hc. simpl. destruct (trimEnd r); rewrite ?Hc; eauto.
Qed.

Lemma trim_idem (s : string) : trim (trim s) = trim s.
Proof.
  unfold trim.
  assert (trimStart (trimEnd (trimStart s)) = trimEnd (trimStart s)) as ->;
    [|apply trimEnd_idem].
  induction s as [|c r IH]; [done|]. cbn [trimStart].
  destruct (isWhiteSpace c) eqn:Hc; [done|].
  destruct (trimEnd_head c r Hc) as [r' ->]. cbn [trimStart].
  by rewrite Hc.
Qed.

(** X21.  Every entry of the list that [/setAccounts] works on is non-empty and
    has no white space at either end: trimming it again changes nothing. *)
Theorem parseList_trimmed (accounts : string) :
  Forall (λ item, item ≠ "" ∧ trim item = item) (parseList accounts).
Proof.
  unfold parseList. apply Forall_forall. intros item Hin.
  apply list_elem_of_In, filter_In in Hin as [Hin Hne].
  apply negb_true_iff, bool_decide_eq_false in Hne.
  apply list_elem_of_In, list_elem_of_fmap in Hin as (line & -> & _).
  split; [done|apply trim_idem].
Qed.

(** X22.  [/setAccount] answers 400 exactly when the e-mail or the password is
    missing or empty, and 409 exactly when both are given and an account of
    the store has the e-mail; in both cases nothing is called and nothing
    changes.  When the event of an accepted request says [success], the
    store ends with the account of that e-mail and password. *)
Theorem routeSetAccount_answers (email_ password_ : option string) (s : State) :
  let r := routeSetAccount login saveAccount email_ password_ s in
  (r.1 = SetAccountBadRequest ↔ Js.truthy email_ = false ∨ Js.truthy password_ = false) ∧
  (r.1 = SetAccountConflict ↔
     Js.truthy email_ = true ∧ Js.truthy password_ = true ∧
     ∃ acc, acc ∈ dreaminaAccounts s ∧ email acc = default "" email_) ∧
  (r.1 = SetAccountBadRequest ∨ r.1 = SetAccountConflict → r.2 = s) ∧
  (r.1 = SetAccountAccepted true →
     ∃ result,
       login (default "" email_) (default "" password_) = LoggedIn result ∧
       dreaminaAccounts r.2 =
         dreaminaAccounts s ++
           [mkAccount (default "" email_) (default "" password_) None None
              (lr_sessionid result) (lr_expires result)]).
Proof.
  intros r. subst r. unfold routeSetAccount.
  destruct (Js.truthy email_) eqn:Hemail, (Js.truthy password_) eqn:Hpassword; simpl;
    try (split_and!; intuition discriminate).
  unfold mbind, M_bind, mret, M_ret, getAllAccounts.
  destruct (Js.find _ _) as [a|] eqn:Hfind.
  - assert (∃ acc, acc ∈ dreaminaAccounts s ∧ email acc = default "" email_) as Hpresent.
    { apply find_present. by rewrite Hfind. }
    simpl. split_and!; intuition discriminate.
  - assert (¬ ∃ acc, acc ∈ dreaminaAccounts s ∧ email acc = default "" email_) as Habsent.
    { intros Hex%find_present. rewrite Hfind in Hex. by destruct Hex. }
    rewrite addAccount_eq, Hfind.
    destruct (login _ _) as [result| |]; simpl;
      [destruct (saveAccount _ _); simpl|..];
      split_and!; try (intuition discriminate).
    intros _. by exists result.
Qed.

End CreationMore.

(** ** Instances of the further properties *)

Lemma handler_relays_response_headers_witness :
  let account := mkAccount "a@x" "pa" None None (Some "t1") None in
  let req := Dispatcher.mkRequest "GET" "/v1/models" (Some "/api/v1/models") None
               {[ "accept" := "*/*" ]} None in
  let resp := Dispatcher.mkUpstreamResponse 200
                [("Content-Type", "application/json"); ("Connection", "keep-alive");
                 ("Transfer-Encoding", "chunked"); ("X-Request-Id", "7")] (Some "{}") in
  let axios := λ _ : Dispatcher.AxiosConfig, Dispatcher.Resolved resp in
  let res := (Dispatcher.handler axios 30000 (Some "https://up.example") [account] 0 req).1 in
  (∀ k v, (k, v) ∈ Dispatcher.setHeader res → Js.toLowerCase k ∉ Dispatcher.hopByHop) ∧
  (∀ k v, (k, v) ∈ Dispatcher.up_headers resp → Js.toLowerCase k ∉ Dispatcher.hopByHop →
     (k, v) ∈ Dispatcher.setHeader res) ∧
  (∃ relayed, Dispatcher.setHeader res = relayed ++ Dispatcher.setCorsHeaders ∧
              relayed `sublist_of` Dispatcher.up_headers resp).
Proof.
  intros account req resp axios.
  apply (handler_relays_response_headers axios 30000 (Some "https://up.example")
           [account] 0 req account resp); reflexivity.
Defined.

Lemma handler_refuses_without_upstream_witness :
  let account := mkAccount "a@x" "pa" None None (Some "t1") None in
  let req := Dispatcher.mkRequest "GET" "/dreamina/getAllAccounts"
               (Some "/api/dreamina/getAllAccounts") None ∅ None in
  let axios := λ _ : Dispatcher.AxiosConfig,
    Dispatcher.Rejected (Dispatcher.mkJsError None None) in
  let axios' := λ _ : Dispatcher.AxiosConfig,
    Dispatcher.Resolved (Dispatcher.mkUpstreamResponse 200 [] None) in
  let r := Dispatcher.handler axios 30000 (Some "https://up.example") [account] 4 req in
  r = Dispatcher.handler axios' 30000 (Some "https://up.example") [account] 4 req ∧
  r.2 = 4 ∧
  (Dispatcher.status r.1 = 503%Z ∨ Dispatcher.status r.1 = 404%Z) ∧
  (Dispatcher.status r.1 = 404%Z ↔
     Js.truthy (Some "https://up.example") = true ∧ Dispatcher.reserved req = true) ∧
  (∃ error, Dispatcher.payload r.1 = Dispatcher.ErrorJson error None).
Proof.
  intros account req axios axios'.
  apply (handler_refuses_without_upstream axios axios' 30000 (Some "https://up.example")
           [account] 4 req).
  right. left. reflexivity.
Defined.

Lemma handleAll_turns_witness :
  let a := mkAccount "a@x" "pa" None None (Some "t1") None in
  let b := mkAccount "b@x" "pb" None None (Some "us-t2") None in
  let c := mkAccount "c@x" "pc" None None None None in
  let forwarded := Dispatcher.mkRequest "POST" "/v1/images" (Some "/api/v1/images") None
                     ∅ (Some "{}") in
  let own := Dispatcher.mkRequest "GET" "/events" (Some "/api/events") None ∅ None in
  let axios := λ cfg : Dispatcher.AxiosConfig,
    Dispatcher.Rejected (Dispatcher.mkJsError (Some "ECONNREFUSED") None) in
  (Dispatcher.handleAll axios 30000 (Some "https://up.example") [a; b; c] 5
     [forwarded; own; forwarded; forwarded]).2 `mod` 2 = (5 + 3) `mod` 2.
Proof.
  intros a b c forwarded own axios.
  apply (handleAll_turns axios 30000 (Some "https://up.example") [a; b; c] 5
           [forwarded; own; forwarded; forwarded]); [reflexivity|simpl; lia].
Defined.

Lemma addAccount_store_witness :
  let login := λ (_ _ : string),
    Manager.LoggedIn (Manager.mkLoginResult (Some "sid") (Some 900%Z)) in
  let save := λ (_ : string) (_ : Manager.SaveData), Manager.SaveThrew in
  let a := mkAccount "a@x" "pa" None None (Some "ta") None in
  let s := Manager.mkState [a] true [] in
  let r := Manager.addAccount login save "b@x" "pb" s in
  (Manager.dreaminaAccounts r.2 =
     [a] ++ [mkAccount "b@x" "pb" None None (Some "sid") (Some 900%Z)] ∧
   length (Manager.saveCalls (Manager.calls r.2)) = S (length (Manager.saveCalls []))) ∧
  Manager.loginCalls (Manager.calls r.2) = Manager.loginCalls [] ++ [("b@x", "pb")].
Proof.
  intros login save a s.
  apply (addAccount_store login save "b@x" "pb" s).
  intros acc Hacc. apply list_elem_of_singleton in Hacc. subst acc. discriminate.
Defined.

Lemma addAccount_removeAccount_witness :
  let login := λ (_ _ : string),
    Manager.LoggedIn (Manager.mkLoginResult (Some "sid") (Some 900%Z)) in
  let save := λ (_ : string) (_ : Manager.SaveData), Manager.Saved in
  let a := mkAccount "a@x" "pa" None None (Some "ta") None in
  let s := Manager.mkState [a] true [] in
  let s1 := (Manager.addAccount login save "b@x" "pb" s).2 in
  (Manager.removeAccount "b@x" s1).1 = true ∧
  Manager.dreaminaAccounts (Manager.removeAccount "b@x" s1).2 = [a].
Proof.
  intros login save a s.
  apply (addAccount_removeAccount login save "b@x" "pb" s
           (Manager.mkLoginResult (Some "sid") (Some 900%Z))); [|reflexivity].
  intros acc Hacc. apply list_elem_of_singleton in Hacc. subst acc. discriminate.
Defined.

Lemma autoRefreshSessionIds_candidates_only_witness :
  let a := mkAccount "a@x" "pa" None None (Some "ta") (Some 100%Z) in
  let b := mkAccount "b@x" "pb" None None (Some "tb") (Some 5000%Z) in
  let c := mkAccount "c@x" "pc" None None (Some "tc") None in
  let refresh := λ acc : Account,
    if bool_decide (email acc = "c@x") then Manager.RefreshNull
    else Manager.Refreshed
           (mkAccount (email acc) (password acc) None None (Some "new") (Some 9000%Z)) in
  let soon := λ (expiry : option Z) (hours : Z),
    match expiry with Some t => (t <=? 1000 + hours)%Z | None => true end in
  let save := λ (_ : string) (_ : Manager.SaveData), Manager.Saved in
  let s := Manager.mkState [a; b; c] true [] in
  let needsRefresh :=
    List.filter (λ account, soon (sessionid_expires account) 24%Z) [a; b; c] in
  let r := Manager.autoRefreshSessionIds refresh soon save 24%Z s in
  Manager.refreshCalls (Manager.calls r.2) = Manager.refreshCalls [] ++ needsRefresh ∧
  Manager.delays (Manager.calls r.2) =
    Manager.delays [] ++ replicate (length needsRefresh) 2000%Z ∧
  r.1 = length (List.filter (Manager.iterationSucceeded refresh save) needsRefresh) ∧
  (∀ i acc, [a; b; c] !! i = Some acc → soon (sessionid_expires acc) 24%Z = false →
     Manager.dreaminaAccounts r.2 !! i = Some acc) ∧
  (needsRefresh = [] → r = (0, s)).
Proof.
  intros a b c refresh soon save s.
  apply (autoRefreshSessionIds_candidates_only refresh soon save 24%Z s); [reflexivity|].
  apply (bool_decide_unpack _). vm_compute. exact I.
Defined.

Lemma loadAccounts_validated_witness :
  let a := mkAccount "a@x" "pa" None None (Some "good") (Some 9000%Z) in
  let b := mkAccount "b@x" "pb" None None (Some "stale") (Some 10%Z) in
  let c := mkAccount "c@x" "pc" None None None None in
  let d := mkAccount "d@x" "" None None None (Some 10%Z) in
  let login := λ (e _ : string),
    if bool_decide (e = "b@x")
    then Manager.LoggedIn (Manager.mkLoginResult (Some "fresh") (Some 9999%Z))
    else Manager.LoginNull in
  let validate := λ (sid : string) (_ : option Z), bool_decide (sid = "good") in
  let persisted := Manager.Loaded [a; b; c; d] in
  let s := Manager.mkState [] false [] in
  let store := Manager.dreaminaAccounts (Manager.loadAccounts login validate persisted s).2 in
  email <$> store `sublist_of` email <$> [a; b; c; d] ∧
  (∀ account, account ∈ [a; b; c; d] → Manager.hasSession account = true →
     Manager.sessionValid validate account = true → account ∈ store) ∧
  (∀ acc, acc ∈ store ↔
     ∃ account, account ∈ [a; b; c; d] ∧ Manager.hasSession account = true ∧
       ((Manager.sessionValid validate account = true ∧ acc = account) ∨
        (Manager.sessionValid validate account = false ∧
         Manager.needsLogin validate account = true ∧
         ∃ result, login (email account) (password account) = Manager.LoggedIn result ∧
                   acc = Manager.withSession account result))).
Proof.
  intros a b c d login validate persisted s.
  apply (loadAccounts_validated login validate persisted [a; b; c; d] s); [reflexivity|].
  intros account _ _ _. unfold login. destruct (bool_decide _); discriminate.
Defined.

Lemma routeGetAllAccounts_pages_cover_witness :
  let a := mkAccount "a@x" "pa" None None (Some "ta") None in
  let b := mkAccount "b@x" "pb" None None None None in
  let c := mkAccount "c@x" "pc" None None (Some "tc") (Some 7%Z) in
  let s := Manager.mkState [a; b; c] true [] in
  let page := λ p : nat,
    (Routes.routeGetAllAccounts (Some (Z.of_nat p)) (Some (Z.of_nat 2)) s).1 in
  concat ((λ p, Routes.pg_data (page (S p))) <$> seq 0 2) = Routes.viewOf <$> [a; b; c] ∧
  (∀ p, length (Routes.pg_data (page (S p))) ≤ 2 ∧
        Routes.pg_total (page (S p)) = 3 ∧
        (Routes.routeGetAllAccounts (Some (Z.of_nat (S p))) (Some (Z.of_nat 2)) s).2 = s) ∧
  (Routes.routeGetAllAccounts None (Some (Z.of_nat 2)) s).1 = page 1 ∧
  page 0 = page 1.
Proof.
  intros a b c s.
  apply (routeGetAllAccounts_pages_cover 2 2 s); simpl; lia.
Defined.
